(** * DES-CHAN: network graph, conflict graph and interference models

    A shallow embedding of [graph.py] and of the three interference models
    [interference/two_hop.py], [interference/two_hop_frac.py] and
    [interference/co.py], together with the properties stated about them.

    Conventions of the embedding.
    - A Python dictionary is a [gmap]; a lookup of a missing key raises
      [KeyError].
    - A method that mutates its object is a function from the object to the
      mutated object and a result; the mutation done before an exception is
      kept, as in Python.
    - The iteration order of a Python set or dictionary is not fixed by the
      language; it is a parameter ([vorder], [eorder]) of which only
      "enumerates the elements once each" is assumed.
    - Python floats are IEEE 754 binary64 numbers ([spec_float] with
      precision 53). *)

From Stdlib Require Import ZArith QArith.QArith_base Ascii String.
From Stdlib Require Import Floats.SpecFloat.
From Stdlib Require Import DecimalString DecimalZ DecimalPos DecimalNat DecimalFacts.
From stdpp Require Import gmap strings list fin_maps sorting.

#[local] Open Scope Z_scope.

(** ** Python values *)

(** Edge values are arbitrary Python objects.  The embedding covers [None],
    booleans, integers, floats, byte strings and lists of integers (the
    latter stand for the objects that [int()] rejects with a [TypeError]). *)
Inductive Val : Type :=
  | VNone
  | VBool (b : bool)
  | VInt (z : Z)
  | VFloat (f : spec_float)
  | VStr (s : string)
  | VList (l : list Z).

#[global] Instance spec_float_eq_dec : EqDecision spec_float.
Proof. solve_decision. Defined.

#[global] Instance Val_eq_dec : EqDecision Val.
Proof. solve_decision. Defined.

(** ** Exceptions and results *)

(** The exceptions that the modelled code can raise.  [CHANError raw e]
    stands for the [CHANError] whose message is built from the raw edge
    value [raw] and the edge [e] (two_hop.py, lines 56 and 60); the edges of
    a network graph join node names. *)
Inductive exn : Type :=
  | KeyError
  | TypeError
  | ValueError
  | OverflowError
  | CHANError (raw : Val) (edge : string * string).

Inductive res (A : Type) : Type :=
  | Ok (a : A)
  | Raise (e : exn).
Arguments Ok {A} a.
Arguments Raise {A} e.

Definition bindR {A B} (r : res A) (k : A → res B) : res B :=
  match r with
  | Ok a => k a
  | Raise e => Raise e
  end.

Notation "x <~ c ; k" := (bindR c (fun x => k))
  (at level 20, c at level 100, k at level 200, only parsing).

(** A computation on a mutable object of type [S]. *)
Definition M (S A : Type) : Type := S → S * res A.

Definition retM {S A} (a : A) : M S A := λ s, (s, Ok a).

Definition bindM {S A B} (c : M S A) (k : A → M S B) : M S B :=
  λ s, match c s with
       | (s', Ok a) => k a s'
       | (s', Raise e) => (s', Raise e)
       end.

Definition raiseM {S A} (e : exn) : M S A := λ s, (s, Raise e).

(** Reading the object without changing it. *)
Definition readM {S A} (f : S → res A) : M S A := λ s, (s, f s).

Notation "x <~~ c ; k" := (bindM c (fun x => k))
  (at level 20, c at level 100, k at level 200, only parsing).
Notation "c1 >>> c2" := (bindM c1 (fun _ => c2))
  (at level 100, c2 at level 200, right associativity, only parsing).

(** [for x in xs: body x] *)
Fixpoint for_each {S X} (xs : list X) (body : X → M S unit) : M S unit :=
  match xs with
  | [] => retM tt
  | x :: rest => body x >>> for_each rest body
  end.

(** The loop shape used all over graph.py:
<<
    remaining_vertices = self.get_vertices()
    for v1 in self.get_vertices():
        for v2 in remaining_vertices:
            body(v1, v2)
        remaining_vertices.remove(v1)
>>
    Both sets are built from the same keys, so they enumerate them in the same
    order; removing an element keeps the order of the others, so that the inner
    loop runs over the vertices from [v1] on. *)
Fixpoint for_pairs {S X} (xs : list X) (body : X → X → M S unit) : M S unit :=
  match xs with
  | [] => retM tt
  | x :: rest => for_each (x :: rest) (body x) >>> for_pairs rest body
  end.

(** ** Operations on Python values *)

(** Truth value of an object, as tested by [if value:]. *)
Definition truthy (v : Val) : bool :=
  match v with
  | VNone => false
  | VBool b => b
  | VInt z => negb (z =? 0)
  | VFloat f =>
      match f with
      | S754_zero _ => false
      | _ => true
      end
  | VStr s =>
      match s with
      | EmptyString => false
      | _ => true
      end
  | VList l =>
      match l with
      | [] => false
      | _ => true
      end
  end.

(** *** [str] and [int] *)

(** [str(n)] for an integer [n]: its decimal digits, with a minus sign when
    negative. *)
Definition py_str_int (z : Z) : string := NilZero.string_of_int (Z.to_int z).

Definition is_space (a : ascii) : bool :=
  let n := nat_of_ascii a in
  ((9 <=? n)%nat && (n <=? 13)%nat) || (n =? 32)%nat.

Fixpoint lstrip (s : string) : string :=
  match s with
  | String a rest => if is_space a then lstrip rest else s
  | EmptyString => EmptyString
  end.

(** Removes the white space at the end: the result is empty when only white
    space is left. *)
Fixpoint rstrip (s : string) : string :=
  match s with
  | EmptyString => EmptyString
  | String a rest =>
      match rstrip rest with
      | EmptyString => if is_space a then EmptyString else String a EmptyString
      | r => String a r
      end
  end.

Definition strip (s : string) : string := rstrip (lstrip s).

(** The digits of a non-empty all-digit string. *)
Definition digits_value (s : string) : option Z :=
  match s with
  | EmptyString => None
  | _ =>
      match NilEmpty.uint_of_string s with
      | Some d => Some (Z.of_uint d)
      | None => None
      end
  end.

(** [int(s)] for a string [s], base 10: white space around, an optional
    sign, at least one digit; anything else is a [ValueError]. *)
Definition py_int_of_string (s : string) : res Z :=
  let body :=
    match strip s with
    | String "-"%char rest => option_map Z.opp (digits_value rest)
    | String "+"%char rest => digits_value rest
    | t => digits_value t
    end in
  match body with
  | Some z => Ok z
  | None => Raise ValueError
  end.

(** [int(x)] of a finite float: truncation towards zero. *)
Definition float_trunc (s : bool) (m : positive) (e : Z) : Z :=
  let a := if 0 <=? e then Z.pos m * 2 ^ e else Z.pos m / 2 ^ (- e) in
  if s then - a else a.

(** [int(value)]. *)
Definition py_int (v : Val) : res Z :=
  match v with
  | VNone => Raise TypeError
  | VBool b => Ok (if b then 1 else 0)
  | VInt z => Ok z
  | VFloat f =>
      match f with
      | S754_zero _ => Ok 0
      | S754_finite s m e => Ok (float_trunc s m e)
      | S754_infinity _ => Raise OverflowError
      | S754_nan => Raise ValueError
      end
  | VStr s => py_int_of_string s
  | VList _ => Raise TypeError
  end.

(** [sys.maxint] of a 64-bit CPython 2. *)
Definition sys_maxint : Z := 9223372036854775807.

(** ** class Graph *)

Section GraphClass.

Context {V : Type} `{Countable V}.

(** Order in which a set of vertices is enumerated by a [for] loop. *)
Variable vorder : gset V → list V.

(** Order in which the keys of a dictionary of edges are enumerated. *)
Variable eorder : gset (V * V) → list (V * V).

(** The two dictionaries of dictionaries of a [Graph] object. *)
Record Graph : Type := mkGraph {
  values : gmap V (gmap V Val);
  distances : gmap V (gmap V Z)
}.

#[local] Abbreviation GM := (M Graph).

(** [d[k1][k2]] *)
Definition get2 {X} (d : gmap V (gmap V X)) (k1 k2 : V) : res X :=
  match d !! k1 with
  | None => Raise KeyError
  | Some row =>
      match row !! k2 with
      | None => Raise KeyError
      | Some x => Ok x
      end
  end.

(** [d[k1][k2] = x]: the row [d[k1]] must exist, the entry is created or
    overwritten. *)
Definition set2 {X} (d : gmap V (gmap V X)) (k1 k2 : V) (x : X)
  : res (gmap V (gmap V X)) :=
  match d !! k1 with
  | None => Raise KeyError
  | Some row => Ok (<[k1 := <[k2 := x]> row]> d)
  end.

(** [del d[k1][k2]] *)
Definition del2 {X} (d : gmap V (gmap V X)) (k1 k2 : V)
  : res (gmap V (gmap V X)) :=
  match d !! k1 with
  | None => Raise KeyError
  | Some row =>
      match row !! k2 with
      | None => Raise KeyError
      | Some _ => Ok (<[k1 := delete k2 row]> d)
      end
  end.

(** [Graph.get_vertices]: [set(self.values.keys())] *)
Definition get_vertices (g : Graph) : gset V := dom (values g).

(** [Graph.set_distance] *)
Definition set_distance (v1 v2 : V) (d : Z) : GM unit := λ g,
  match set2 (distances g) v1 v2 d with
  | Raise e => (g, Raise e)
  | Ok dm1 =>
      let g1 := mkGraph (values g) dm1 in
      match set2 dm1 v2 v1 d with
      | Raise e => (g1, Raise e)
      | Ok dm2 => (mkGraph (values g) dm2, Ok tt)
      end
  end.

(** [Graph.get_edge_value] *)
Definition get_edge_value (g : Graph) (edge : V * V) : res Val :=
  get2 (values g) edge.1 edge.2.

(** [Graph.get_distance] *)
Definition get_distance (g : Graph) (v1 v2 : V) : res Z :=
  get2 (distances g) v1 v2.

(** One step of the innermost loop of [Graph.update_distances]. *)
Definition relax (k v1 v2 : V) : GM unit :=
  d12 <~~ readM (λ g, get_distance g v1 v2);
  d1k <~~ readM (λ g, get_distance g v1 k);
  dk2 <~~ readM (λ g, get_distance g k v2);
  set_distance v1 v2 (Z.min d12 (d1k + dk2)).

(** [Graph.update_distances]: Floyd-Warshall. *)
Definition update_distances : GM unit := λ g,
  let vs := vorder (get_vertices g) in
  for_each vs (λ k, for_pairs vs (relax k)) g.

(** [Graph.set_edge_value] *)
Definition set_edge_value (edge : V * V) (value : Val) (update : bool) : GM unit := λ g,
  let '(v1, v2) := edge in
  match set2 (values g) v1 v2 value with
  | Raise e => (g, Raise e)
  | Ok m1 =>
      let g1 := mkGraph m1 (distances g) in
      match set2 m1 v2 v1 value with
      | Raise e => (g1, Raise e)
      | Ok m2 =>
          let g2 := mkGraph m2 (distances g) in
          if truthy value then
            (set_distance v1 v2 1 >>>
             if update then update_distances else retM tt) g2
          else (g2, Ok tt)
      end
  end.

(** [Graph.add_vertex] *)
Definition add_vertex (new_vertex : V) : GM unit := λ g,
  if decide (new_vertex ∈ get_vertices g) then (g, Ok tt)
  else
    let g1 := mkGraph (<[new_vertex := ∅]> (values g))
                      (<[new_vertex := ∅]> (distances g)) in
    (for_each (vorder (get_vertices g1))
       (λ old_vertex,
          set_edge_value (old_vertex, new_vertex) VNone false >>>
          set_distance old_vertex new_vertex sys_maxint) >>>
     set_distance new_vertex new_vertex 0) g1.

(** [Graph.__init__] *)
Definition empty_graph : Graph := mkGraph ∅ ∅.

Definition Graph_init (vertices : list V) : Graph * res unit :=
  for_each vertices add_vertex empty_graph.

(** [Graph.remove_vertex] *)
Definition remove_vertex (vertex : V) : GM unit := λ g,
  match values g !! vertex with
  | None => (g, Raise KeyError)
  | Some _ =>
      let g1 := mkGraph (delete vertex (values g)) (distances g) in
      match distances g !! vertex with
      | None => (g1, Raise KeyError)
      | Some _ =>
          let g2 := mkGraph (delete vertex (values g)) (delete vertex (distances g)) in
          for_each (vorder (get_vertices g2))
            (λ v g',
               match del2 (values g') v vertex with
               | Raise e => (g', Raise e)
               | Ok m =>
                   let g'' := mkGraph m (distances g') in
                   match del2 (distances g') v vertex with
                   | Raise e => (g'', Raise e)
                   | Ok dm => (mkGraph m dm, Ok tt)
                   end
               end) g2
      end
  end.

(** [Graph.get_edges]: the dictionary [edges] is the object that the loops
    fill. *)
Definition get_edges (get_all : bool) (g : Graph) : res (gmap (V * V) Val) :=
  let vs := vorder (get_vertices g) in
  let body (v1 v2 : V) : M (gmap (V * V) Val) unit := λ edges,
    match get_edge_value g (v1, v2) with
    | Raise e => (edges, Raise e)
    | Ok value =>
        if truthy value then (<[(v1, v2) := value]> edges, Ok tt)
        else (edges, Ok tt)
    end in
  let loops :=
    if get_all then for_each vs (λ v1, for_each vs (body v1))
    else for_pairs vs body in
  match loops ∅ with
  | (edges, Ok _) => Ok edges
  | (_, Raise e) => Raise e
  end.

(** [Graph.copy]: [g] is the new object, [self] is only read. *)
Definition copy (self : Graph) : res Graph :=
  let remaining_vertices := vorder (get_vertices self) in
  match Graph_init remaining_vertices with
  | (_, Raise e) => Raise e
  | (g0, Ok _) =>
      let body (v1 v2 : V) : GM unit :=
        value <~~ readM (λ _, get_edge_value self (v1, v2));
        set_edge_value (v1, v2) value true >>>
        d <~~ readM (λ _, get_distance self v1 v2);
        set_distance v1 v2 d in
      match for_pairs remaining_vertices body g0 with
      | (g, Ok _) => Ok g
      | (_, Raise e) => Raise e
      end
  end.

(** [Graph.copy_fast] *)
Definition copy_fast (self : Graph) : res Graph :=
  let remaining_vertices := vorder (get_vertices self) in
  match Graph_init remaining_vertices with
  | (_, Raise e) => Raise e
  | (g0, Ok _) =>
      _e <~ get_edges false self;
      edges <~ get_edges false self;
      let body (edge : V * V) : GM unit :=
        value <~~ readM (λ _, get_edge_value self edge);
        set_edge_value edge value false >>>
        d <~~ readM (λ _, get_distance self edge.1 edge.2);
        set_distance edge.1 edge.2 d in
      match for_each (eorder (dom edges)) body g0 with
      | (g, Ok _) => Ok g
      | (_, Raise e) => Raise e
      end
  end.

End GraphClass.

Arguments Graph V {_ _}.
Arguments mkGraph {V _ _} values distances.

(** ** Interference models *)

(** Network graphs join node names. *)
Abbreviation NetGraph := (Graph string).
Abbreviation Edge := (string * string)%type.

Section Interference.

(** Order in which a set of node names is enumerated. *)
Variable norder : gset string → list string.

(** The conversion of an edge value to a channel, shared by the three
    models:
<<
    try:
        channel = int(graph.get_edges()[e])
    except TypeError:
        raise CHANError(... % (graph.get_edges()[e], e))
>> *)
Definition edge_channel (graph : NetGraph) (e : Edge) : res Z :=
  edges <~ get_edges norder false graph;
  match edges !! e with
  | None => Raise KeyError
  | Some value =>
      match py_int value with
      | Raise TypeError =>
          edges' <~ get_edges norder false graph;
          match edges' !! e with
          | None => Raise KeyError
          | Some raw => Raise (CHANError raw e)
          end
      | r => r
      end
  end.

(** The four hop counts between the end points of two edges, and their
    minimum. *)
Definition min_hop_count (graph : NetGraph) (e1 e2 : Edge) : res Z :=
  h1 <~ get_distance graph e1.1 e2.1;
  h2 <~ get_distance graph e1.1 e2.2;
  h3 <~ get_distance graph e1.2 e2.1;
  h4 <~ get_distance graph e1.2 e2.2;
  Ok (Z.min (Z.min (Z.min h1 h2) h3) h4).

End Interference.

(** *** two_hop.py *)

Module two_hop.
Section Model.
Variable norder : gset string → list string.

Definition get_interference (graph : NetGraph) (e1 e2 : Edge) : res Val :=
  if decide (e1 = e2) then Ok (VInt 0)
  else
    channel1 <~ edge_channel norder graph e1;
    channel2 <~ edge_channel norder graph e2;
    if decide (channel1 ≠ channel2) then Ok (VInt 0)
    else
      m <~ min_hop_count graph e1 e2;
      if m <? 2 then Ok (VInt 1) else Ok (VInt 0).

End Model.
End two_hop.

(** *** two_hop_frac.py *)

(** [range(start, stop, step)] for a positive [step]. *)
Definition py_range (start stop step : Z) : list Z :=
  (λ i : nat, start + Z.of_nat i * step) <$> seq 0 (Z.to_nat ((stop - start + step - 1) / step)).

(** Python floats. *)
Definition float_of_Z (z : Z) : spec_float := binary_normalize 53 1024 z 0 false.
Definition float_div : spec_float → spec_float → spec_float := SFdiv 53 1024.
Definition float_mul : spec_float → spec_float → spec_float := SFmul 53 1024.
Definition float_add : spec_float → spec_float → spec_float := SFadd 53 1024.
Definition float_sub : spec_float → spec_float → spec_float := SFsub 53 1024.

Module two_hop_frac.

(** The module-level table [frequencies], filled by four loops. *)
Definition frequencies : gmap Z Z :=
  let f0 : gmap Z Z := ∅ in
  (* 2.4 GHz band *)
  let f1 := foldl (λ f i, <[i + 1 := 2412 + i * 5]> f) f0 (py_range 0 14 1) in
  (* lower 5GHz band *)
  let f2 := foldl (λ f i, <[i := 5180 + 20 * ((i - 36) / 4)]> f) f1 (py_range 36 68 4) in
  (* middle 5GHz band *)
  let f3 := foldl (λ f i, <[i := 5500 + 20 * ((i - 100) / 4)]> f) f2 (py_range 100 144 4) in
  (* upper 5GHz band *)
  foldl (λ f i, <[i := 5745 + 20 * ((i - 149) / 4)]> f) f3 (py_range 149 169 4).

Definition MIN_FREQ_DIFF : Z := 60.

Section Model.
Variable norder : gset string → list string.

Definition get_interference (graph : NetGraph) (e1 e2 : Edge) : res Val :=
  if decide (e1 = e2) then Ok (VInt 0)
  else
    channel1 <~ edge_channel norder graph e1;
    channel2 <~ edge_channel norder graph e2;
    match frequencies !! channel1 with
    | None => Raise KeyError
    | Some freq1 =>
        match frequencies !! channel2 with
        | None => Raise KeyError
        | Some freq2 =>
            let diff := Z.abs (freq1 - freq2) in
            if MIN_FREQ_DIFF <=? diff then Ok (VInt 0)
            else
              let interf :=
                float_add
                  (float_mul
                     (float_div (SFopp (float_of_Z 1)) (float_of_Z MIN_FREQ_DIFF))
                     (float_of_Z diff))
                  (float_of_Z 1) in
              m <~ min_hop_count graph e1 e2;
              if m <? 2 then Ok (VFloat interf) else Ok (VInt 0)
        end
    end.

End Model.
End two_hop_frac.

(** *** co.py *)

(** The rows that the two queries of [init] return. *)
Record Database : Type := mkDatabase {
  node_rows : list (Z * string);        (* id, name *)
  cor_rows : list (Z * Z * Q)           (* id_listener, id_sender, cot_max *)
}.

Module co.

(** Threshold for the sensed channel occupancy (in percent) *)
Definition CO_THRESHOLD : Q := 2%Q.

(** The two module-level dictionaries. *)
Record Cache : Type := mkCache {
  node_id : gmap Z string;
  cot_max : gmap string Q
}.

Definition key (listener sender : string) : string :=
  (listener ++ "-" ++ sender)%string.

Section Model.
Variable norder : gset string → list string.
Variable db : Database.

Definition init : M Cache unit :=
  for_each (node_rows db)
    (λ r c, (mkCache (<[r.1 := r.2]> (node_id c)) (cot_max c), Ok tt)) >>>
  for_each (cor_rows db)
    (λ r c,
       let '(id_listener, id_sender, cot) := r in
       match node_id c !! id_listener with
       | None => (c, Raise KeyError)
       | Some listener =>
           match node_id c !! id_sender with
           | None => (c, Raise KeyError)
           | Some sender =>
               (mkCache (node_id c) (<[key listener sender := cot]> (cot_max c)), Ok tt)
           end
       end).

Definition lookup_co (a b : string) : M Cache Q := λ c,
  match cot_max c !! key a b with
  | None => (c, Raise KeyError)
  | Some x => (c, Ok x)
  end.

(** [max] of two occupancy values. *)
Definition qmax (a b : Q) : Q := if Qle_bool a b then b else a.

Definition get_interference (graph : NetGraph) (e1 e2 : Edge) : M Cache Val :=
  (λ c, if decide (size (node_id c) = 0%nat) then init c else (c, Ok tt)) >>>
  if decide (e1 = e2) then retM (VInt 0)
  else
    channel1 <~~ readM (λ _, edge_channel norder graph e1);
    channel2 <~~ readM (λ _, edge_channel norder graph e2);
    if decide (channel1 ≠ channel2) then retM (VInt 0)
    else
      c1 <~~ lookup_co e1.1 e2.1;
      c2 <~~ lookup_co e1.1 e2.2;
      c3 <~~ lookup_co e1.2 e2.1;
      c4 <~~ lookup_co e1.2 e2.2;
      if negb (Qle_bool (qmax (qmax (qmax c1 c2) c3) c4) CO_THRESHOLD)
      then retM (VInt 1) else retM (VInt 0).

End Model.

(** The model as a conflict graph calls it, with the module-level cache
    [cache]: the value of [get_interference].  (Once the cache is populated
    the calls leave it as it is.) *)
Definition model (norder : gset string → list string) (db : Database)
    (cache : Cache) (graph : NetGraph) (e1 e2 : Edge) : res Val :=
  (get_interference norder db graph e1 e2 cache).2.

End co.

(** ** class ConflictGraphVertex, class ConflictGraph *)

(** A vertex of the conflict graph is an object (compared and hashed by
    identity, here [cgv_id]) that wraps a link of the network graph. *)
Record ConflictGraphVertex : Type := mkCGV {
  cgv_id : positive;
  nw_graph_edge : Edge
}.

#[global] Instance ConflictGraphVertex_eq_dec : EqDecision ConflictGraphVertex.
Proof. solve_decision. Defined.

#[global] Instance ConflictGraphVertex_countable : Countable ConflictGraphVertex.
Proof.
  apply (inj_countable' (λ v, (cgv_id v, nw_graph_edge v))
                        (λ p, mkCGV p.1 p.2)).
  by intros [].
Defined.

(** What a conflict graph needs of an interference model: its
    [get_interference(graph, e1, e2)]. *)
Definition InterferenceModel : Type := NetGraph → Edge → Edge → res Val.

(** A [ConflictGraph] is a [Graph] over [ConflictGraphVertex] objects
    ([cg_graph] holds the inherited attributes) with two more attributes.
    The network graph is referenced, not copied: [set_channel] writes into
    it. *)
Record ConflictGraph : Type := mkCG {
  cg_graph : Graph ConflictGraphVertex;
  network_graph : NetGraph;
  interference_model : InterferenceModel
}.

Section ConflictGraphClass.

Variable norder : gset string → list string.
Variable neorder : gset Edge → list Edge.
Variable corder : gset ConflictGraphVertex → list ConflictGraphVertex.

(** A method inherited from [Graph], run on the conflict graph itself. *)
Definition on_self {A} (c : M (Graph ConflictGraphVertex) A) : M ConflictGraph A := λ s,
  let '(g, r) := c (cg_graph s) in
  (mkCG g (network_graph s) (interference_model s), r).

(** A method of the network graph, run through the reference to it. *)
Definition on_network {A} (c : M NetGraph A) : M ConflictGraph A := λ s,
  let '(g, r) := c (network_graph s) in
  (mkCG (cg_graph s) g (interference_model s), r).

(** [self.interference_model.get_interference(self.network_graph, e1, e2)] *)
Definition interference (e1 e2 : Edge) : M ConflictGraph Val :=
  readM (λ s, interference_model s (network_graph s) e1 e2).

(** [ConflictGraph.update_edges] *)
Definition update_edges : M ConflictGraph unit := λ s,
  for_pairs (corder (get_vertices (cg_graph s)))
    (λ v1 v2,
       value <~~ interference (nw_graph_edge v1) (nw_graph_edge v2);
       on_self (set_edge_value corder (v1, v2) value false)) s.

(** [ConflictGraph.update_edge] *)
Definition update_edge (cg_vertex : ConflictGraphVertex) : M ConflictGraph unit := λ s,
  for_each (corder (get_vertices (cg_graph s)))
    (λ v2,
       value <~~ interference (nw_graph_edge cg_vertex) (nw_graph_edge v2);
       on_self (set_edge_value corder (cg_vertex, v2) value false)) s.

(** [ConflictGraphVertex.get_channel] *)
Definition get_channel (self : ConflictGraphVertex) (s : ConflictGraph) : res Z :=
  value <~ get_edge_value (network_graph s) (nw_graph_edge self);
  py_int value.

(** [ConflictGraphVertex.set_channel], for an integer [channel]. *)
Definition set_channel (self : ConflictGraphVertex) (channel : Z) : M ConflictGraph unit :=
  on_network (set_edge_value norder (nw_graph_edge self) (VStr (py_str_int channel)) true) >>>
  update_edge self.

(** [ConflictGraph.__init__]: the vertex objects are numbered in the order
    of their creation. *)
Definition ConflictGraph_init (network_graph : NetGraph)
    (interference_model : InterferenceModel) : ConflictGraph * res unit :=
  let s0 := mkCG empty_graph network_graph interference_model in
  match get_edges norder false network_graph with
  | Raise e => (s0, Raise e)
  | Ok edges =>
      let vertices :=
        imap (λ i edge, mkCGV (Pos.of_succ_nat i) edge) (neorder (dom edges)) in
      (on_self (for_each (corder (list_to_set vertices)) (add_vertex corder)) >>>
       update_edges) s0
  end.

End ConflictGraphClass.

(** * Auxiliary notions for the statements *)

(** ** Iteration orders *)

(** What is assumed of the order in which a set is enumerated. *)
Definition enumerates `{Countable K} (order : gset K → list K) : Prop :=
  ∀ X, order X ≡ₚ elements X.

(** An enumeration that lists the elements of [l] first, in the order of
    [l], and the others after them. *)
Definition order_by `{Countable K} (l : list K) (X : gset K) : list K :=
  filter (.∈ X) (remove_dups l) ++ filter (.∉ l) (elements X).

(** [precedes xs x y]: [x] occurs in [xs] and [y] is [x] or occurs after it;
    these are the pairs that [for_pairs] visits. *)
Inductive precedes {X} : list X → X → X → Prop :=
  | precedes_here x rest y : y ∈ x :: rest → precedes (x :: rest) x y
  | precedes_later x rest a b : precedes rest a b → precedes (x :: rest) a b.

(** ** Total correctness of a computation *)

(** From a state in [P], the computation [c] raises nothing and ends in a
    state and with a value in [Q]. *)
Definition hoare {S A} (P : S → Prop) (c : M S A) (Q : A → S → Prop) : Prop :=
  ∀ s, P s → ∃ s' a, c s = (s', Ok a) ∧ Q a s'.

(** ** The class invariant of [Graph] *)

(** A dictionary of dictionaries is complete over [D] when its rows are the
    elements of [D] and each row has an entry for each element of [D]. *)
Definition complete {V} `{Countable V} {X} (D : gset V) (m : gmap V (gmap V X)) : Prop :=
  dom m = D ∧ map_Forall (λ _ row, dom row = D) m.

#[global] Instance complete_dec {V} `{Countable V} {X} (D : gset V)
  (m : gmap V (gmap V X)) : Decision (complete D m).
Proof. unfold complete. apply _. Defined.

(** Both dictionaries of a graph have a row for each vertex and an entry for
    each pair of vertices: [add_vertex] establishes it, and the other methods
    keep it. *)
Definition Graph_wf {V} `{Countable V} (g : Graph V) : Prop :=
  complete (get_vertices g) (values g) ∧ complete (get_vertices g) (distances g).

#[global] Instance Graph_wf_dec {V} `{Countable V} (g : Graph V) : Decision (Graph_wf g).
Proof. unfold Graph_wf. apply _. Defined.

#[global] Instance Graph_eq_dec {V} `{Countable V} : EqDecision (Graph V).
Proof. solve_decision. Defined.

(** Symmetry of the two dictionaries, kept by [set_edge_value] and
    [set_distance], which write both directions. *)
Definition values_symmetric {V} `{Countable V} (g : Graph V) : Prop :=
  ∀ a b, get_edge_value g (a, b) = get_edge_value g (b, a).

Definition distances_symmetric {V} `{Countable V} (g : Graph V) : Prop :=
  ∀ a b, get_distance g a b = get_distance g b a.

(** [same_pair a b v1 v2]: the pair [(a, b)] is [(v1, v2)] in one of the two
    directions. *)
Definition same_pair {V} (a b v1 v2 : V) : Prop :=
  (a = v1 ∧ b = v2) ∨ (a = v2 ∧ b = v1).

#[global] Instance same_pair_dec {V} `{EqDecision V} (a b v1 v2 : V) :
  Decision (same_pair a b v1 v2).
Proof. unfold same_pair. apply _. Defined.

(** The entries of the two dictionaries, read as total functions (the
    default is for the pairs that have no entry). *)
Definition distance {V} `{Countable V} (g : Graph V) (a b : V) : Z :=
  match get_distance g a b with
  | Ok d => d
  | Raise _ => 0
  end.

Definition edge_value {V} `{Countable V} (g : Graph V) (a b : V) : Val :=
  match get_edge_value g (a, b) with
  | Ok v => v
  | Raise _ => VNone
  end.

(** A string without white space. *)
Fixpoint no_space (s : string) : bool :=
  match s with
  | EmptyString => true
  | String a rest => negb (is_space a) && no_space rest
  end.

(** ** The channel plan, as the specification words it *)

(** The centre frequency (MHz) of a channel: the channels 1 to 14 of the
    2.4 GHz band are 5 MHz apart from 2412 MHz on; the three 5 GHz sub-bands
    start at 5180, 5500 and 5745 MHz (channels 36, 100 and 149) and advance
    by 20 MHz every four channels. *)
Definition center_frequency (c : Z) : Z :=
  if c <=? 14 then 2412 + 5 * (c - 1)
  else if c <? 100 then 5180 + 20 * ((c - 36) / 4)
  else if c <? 149 then 5500 + 20 * ((c - 100) / 4)
  else 5745 + 20 * ((c - 149) / 4).

(** [1 - diff/60], evaluated on floats. *)
Definition spectral_overlap (diff : Z) : spec_float :=
  float_sub (float_of_Z 1) (float_div (float_of_Z diff) (float_of_Z 60)).

(** ** Conflict graphs *)

#[global] Instance exn_eq_dec : EqDecision exn.
Proof. solve_decision. Defined.

#[global] Instance res_eq_dec {A} `{EqDecision A} : EqDecision (res A).
Proof. solve_decision. Defined.

(** The invariant of a conflict graph: the weight of every pair of
    vertices is what the interference model returns for their links on the
    current network graph. *)
Definition cg_invariant (s : ConflictGraph) : Prop :=
  set_Forall (λ a,
    set_Forall (λ b,
      interference_model s (network_graph s) (nw_graph_edge a) (nw_graph_edge b) =
      get_edge_value (cg_graph s) (a, b))
    (get_vertices (cg_graph s)))
  (get_vertices (cg_graph s)).

(** One vertex per link: distinct vertices wrap distinct links, in whatever
    direction the links are written. *)
Definition distinct_links (s : ConflictGraph) : Prop :=
  set_Forall (λ a,
    set_Forall (λ b,
      a ≠ b →
      ¬ same_pair (nw_graph_edge a).1 (nw_graph_edge a).2
                  (nw_graph_edge b).1 (nw_graph_edge b).2)
    (get_vertices (cg_graph s)))
  (get_vertices (cg_graph s)).

(** [graph.get_edges()[e]] *)
Definition edge_lookup (norder : gset string → list string) (g : NetGraph) (e : Edge)
  : res Val :=
  edges <~ get_edges norder false g;
  match edges !! e with
  | Some v => Ok v
  | None => Raise KeyError
  end.

(** An interference model is local when its value for two links depends
    only on the values of these two links and on the distances. *)
Definition im_local (norder : gset string → list string) (I : InterferenceModel) : Prop :=
  ∀ g g' e1 e2,
    (∀ a b, get_distance g a b = get_distance g' a b) →
    edge_lookup norder g e1 = edge_lookup norder g' e1 →
    edge_lookup norder g e2 = edge_lookup norder g' e2 →
    I g e1 e2 = I g' e1 e2.

(** An interference model is symmetric when a value that it returns for
    two links is also returned for them in the other order. *)
Definition im_symmetric (I : InterferenceModel) : Prop :=
  ∀ g e1 e2 w,
    distances_symmetric g → I g e1 e2 = Ok w → I g e2 e1 = Ok w.

(** * Concrete graphs used in the examples *)

Module Examples.

#[local] Open Scope string_scope.

(** One node with a loop: [Graph(["a"])],
    [set_edge_value(("a", "a"), 40)]. *)
Definition loop_graph : Graph string :=
  (set_edge_value elements ("a", "a") (VInt 40) true
     (Graph_init elements ["a"]).1).1.

(** The path a - b - c, built with the recomputation of the distances
    switched off: the distance between a and c is still the initial one. *)
Definition stale_path : Graph string :=
  (for_each [("a", "b"); ("b", "c")]
     (λ e, set_edge_value (order_by ["a"; "c"; "b"]) e (VInt 1) false)
     (Graph_init (order_by ["a"; "c"; "b"]) ["a"; "b"; "c"]).1).1.

(** The same path after [update_distances]. *)
Definition path_abc : Graph string :=
  (update_distances (order_by ["a"; "c"; "b"]) stale_path).1.

(** The enumeration of the node names a, b, c, d by a CPython 2.7 set. *)
Definition norder4 : gset string → list string := order_by ["a"; "c"; "b"; "d"].

(** The path a - b - c - d with all links on channel 1; the channels are
    strings, as [set_channel] writes them. *)
Definition net_path : NetGraph :=
  (for_each [("a", "b"); ("b", "c"); ("c", "d")]
     (λ e, set_edge_value norder4 e (VStr "1") true)
     (Graph_init norder4 ["a"; "b"; "c"; "d"]).1).1.

(** The same path with the links on the channels 1, 6 and 2. *)
Definition net_mixed : NetGraph :=
  (for_each [(("a", "b"), "1"); (("b", "c"), "6"); (("c", "d"), "2")]
     (λ ec, set_edge_value norder4 ec.1 (VStr ec.2) true)
     (Graph_init norder4 ["a"; "b"; "c"; "d"]).1).1.

(** The path a - b - c whose link a - b holds the string "x" and whose
    link b - c holds the string "1". *)
Definition net_bad : NetGraph :=
  (for_each [(("a", "b"), "x"); (("b", "c"), "1")]
     (λ ec, set_edge_value norder4 ec.1 (VStr ec.2) true)
     (Graph_init norder4 ["a"; "b"; "c"]).1).1.

(** The same path whose link a - b holds the list [[1]]. *)
Definition net_list : NetGraph :=
  (for_each [(("a", "b"), VList [1]); (("b", "c"), VStr "1")]
     (λ ec, set_edge_value norder4 ec.1 ec.2 true)
     (Graph_init norder4 ["a"; "b"; "c"]).1).1.

(** A measurement database with four nodes and one measurement: node a
    senses a channel occupancy of 5 percent when node c sends. *)
Definition db_one : Database :=
  mkDatabase [(1, "a"); (2, "b"); (3, "c"); (4, "d")] [(1, 3, 5%Q)].

(** The cache that [co.init] fills from it. *)
Definition cache_one : co.Cache :=
  (co.init db_one (co.mkCache ∅ ∅)).1.

(** The dictionaries of the edges of these graphs. *)
Definition edges_of (norder : gset string → list string) (g : NetGraph) : gmap Edge Val :=
  match get_edges norder false g with
  | Ok edges => edges
  | Raise _ => ∅
  end.

(** The conflict graph of [net_path] under the binary two-hop model. *)
Definition cg_path : ConflictGraph :=
  (ConflictGraph_init norder4 elements elements net_path
     (two_hop.get_interference norder4)).1.

(** Two links a - b (channel 1) and c - d (channel 2) that are not
    connected to each other. *)
Definition net_two : NetGraph :=
  (for_each [(("a", "b"), "1"); (("c", "d"), "2")]
     (λ ec, set_edge_value norder4 ec.1 (VStr ec.2) true)
     (Graph_init norder4 ["a"; "b"; "c"; "d"]).1).1.

(** Measurements for these four nodes: node a senses 5 percent when node c
    sends, every other measured pair is at 0. *)
Definition db_asym : Database :=
  mkDatabase [(1, "a"); (2, "b"); (3, "c"); (4, "d")]
    [(1, 3, 5%Q); (1, 4, 0%Q); (2, 3, 0%Q); (2, 4, 0%Q);
     (3, 1, 0%Q); (3, 2, 0%Q); (4, 1, 0%Q); (4, 2, 0%Q)].

Definition cache_asym : co.Cache :=
  (co.init db_asym (co.mkCache ∅ ∅)).1.

(** The two vertices of the conflict graph of [net_two], and an
    enumeration that lists the vertex of c - d first. *)
Definition v_ab : ConflictGraphVertex := mkCGV 1 ("a", "b").
Definition v_cd : ConflictGraphVertex := mkCGV 2 ("c", "d").

Definition corder_cd_ab : gset ConflictGraphVertex → list ConflictGraphVertex :=
  order_by [v_cd; v_ab].

(** The conflict graph of [net_two] under the channel-occupancy model. *)
Definition cg_two : ConflictGraph :=
  (ConflictGraph_init norder4 (order_by [("a", "b"); ("c", "d")]) corder_cd_ab
     net_two (co.model norder4 db_asym cache_asym)).1.

End Examples.

(** * Properties *)

(** Settles a decidable closed proposition by evaluating its decision
    procedure. *)
Ltac decide_by_computation :=
  apply (bool_decide_unpack _); vm_compute; exact I.

(** ** Results and computations *)

Lemma bindR_Ok {A B} (r : res A) (k : A → res B) a :
  r = Ok a → bindR r k = k a.
Proof. by intros ->. Qed.

Lemma bindM_Ok {S A B} (c : M S A) (k : A → M S B) s s' a :
  c s = (s', Ok a) → bindM c k s = k a s'.
Proof. unfold bindM. by intros ->. Qed.

Lemma bindM_Raise {S A B} (c : M S A) (k : A → M S B) s s' e :
  c s = (s', Raise e) → bindM c k s = (s', Raise e).
Proof. unfold bindM. by intros ->. Qed.

(** A run whose result is [Ok] ends in its final state. *)
Lemma run_Ok {S} (c : M S unit) s : (c s).2 = Ok tt → c s = ((c s).1, Ok tt).
Proof. destruct (c s) as [s' r]. simpl. by intros ->. Qed.

Lemma hoare_ret {S A} (P : S → Prop) (a : A) (Q : A → S → Prop) :
  (∀ s, P s → Q a s) → hoare P (retM a) Q.
Proof. intros HQ s Hs. exists s, a. eauto. Qed.

Lemma hoare_bind {S A B} (P : S → Prop) (c : M S A) (R : A → S → Prop)
    (k : A → M S B) (Q : B → S → Prop) :
  hoare P c R → (∀ a, hoare (R a) (k a) Q) → hoare P (bindM c k) Q.
Proof.
  intros Hc Hk s Hs. destruct (Hc s Hs) as (s1 & a & Hrun & HR).
  destruct (Hk a s1 HR) as (s2 & b & Hrun2 & HQ).
  exists s2, b. split; [|done]. by rewrite (bindM_Ok _ _ _ _ _ Hrun).
Qed.

Lemma hoare_conseq {S A} (P P' : S → Prop) (c : M S A) (Q Q' : A → S → Prop) :
  hoare P' c Q' → (∀ s, P s → P' s) → (∀ a s, Q' a s → Q a s) → hoare P c Q.
Proof.
  intros Hc HP HQ s Hs. destruct (Hc s (HP s Hs)) as (s' & a & ? & ?).
  exists s', a. eauto.
Qed.

Lemma hoare_read {S A} (P : S → Prop) (f : S → res A) (Q : A → S → Prop) :
  (∀ s, P s → ∃ a, f s = Ok a ∧ Q a s) → hoare P (readM f) Q.
Proof.
  intros Hf s Hs. destruct (Hf s Hs) as (a & Ha & HQ).
  exists s, a. unfold readM. by rewrite Ha.
Qed.

(** A loop keeps its invariant. *)
Lemma hoare_for_each {S X} (I : S → Prop) (xs : list X) (body : X → M S unit) :
  (∀ x, x ∈ xs → hoare I (body x) (λ _, I)) →
  hoare I (for_each xs body) (λ _, I).
Proof.
  induction xs as [|x xs IH]; intros Hbody.
  - by apply hoare_ret.
  - simpl. eapply hoare_bind.
    + apply Hbody. left.
    + intros u. apply IH. intros y Hy. apply Hbody. by right.
Qed.

(** A loop establishes [R x] for each [x] it visits, when every iteration
    keeps what the others have established; [Q] is any family of properties
    that the iterations keep. *)
Lemma for_each_establish {S X J} (I : S → Prop) (R : X → S → Prop)
    (Q : J → S → Prop) (xs : list X) (body : X → M S unit) :
  (∀ x s, x ∈ xs → I s →
     ∃ s', body x s = (s', Ok tt) ∧ I s' ∧ R x s' ∧
           (∀ y, R y s → R y s') ∧ (∀ j, Q j s → Q j s')) →
  ∀ s, I s →
    ∃ s', for_each xs body s = (s', Ok tt) ∧ I s' ∧
          (∀ x, x ∈ xs → R x s') ∧
          (∀ y, R y s → R y s') ∧ (∀ j, Q j s → Q j s').
Proof.
  induction xs as [|x xs IH]; intros Hbody s Hs.
  - exists s. split_and!; [done..| |done|done].
    intros x Hx. by apply elem_of_nil in Hx.
  - destruct (Hbody x s (list_elem_of_here _ _) Hs)
      as (s1 & Hrun1 & HI1 & HR1 & Hst1 & HQ1).
    destruct (IH (λ y s0 Hy, Hbody y s0 (list_elem_of_further _ _ _ Hy)) s1 HI1)
      as (s2 & Hrun2 & HI2 & HR2 & Hst2 & HQ2).
    exists s2. split_and!; [|done| |by auto|by auto].
    + simpl. by rewrite (bindM_Ok _ _ _ _ _ Hrun1).
    + intros y [->|Hy]%elem_of_cons; auto.
Qed.

Lemma precedes_elem_of {X} (xs : list X) a b :
  precedes xs a b → a ∈ xs ∧ b ∈ xs.
Proof.
  induction 1 as [x rest y Hy|x rest a b _ [IHa IHb]].
  - split; [left|done].
  - split; by right.
Qed.

Lemma precedes_total {X} (xs : list X) a b :
  a ∈ xs → b ∈ xs → precedes xs a b ∨ precedes xs b a.
Proof.
  induction xs as [|x xs IH]; intros Ha Hb.
  - by apply elem_of_nil in Ha.
  - apply elem_of_cons in Ha as [->|Ha].
    { left. by constructor. }
    apply elem_of_cons in Hb as [->|Hb].
    { right. constructor. by right. }
    destruct (IH Ha Hb); [left|right]; by constructor.
Qed.

Lemma precedes_refl {X} (xs : list X) a : a ∈ xs → precedes xs a a.
Proof. intros Ha. by destruct (precedes_total xs a a Ha Ha). Qed.

Lemma precedes_antisym {X} (xs : list X) a b :
  NoDup xs → precedes xs a b → precedes xs b a → a = b.
Proof.
  intros Hnd Hab. induction Hab as [x rest y Hy|x rest a b Hab IH]; intros Hba.
  - inversion Hba as [|? ? ? ? Hba']; subst; [done|].
    apply precedes_elem_of in Hba' as [_ Hx].
    by apply NoDup_cons in Hnd as [? _].
  - apply NoDup_cons in Hnd as [Hx Hnd].
    inversion Hba as [? ? ? Hin|]; subst; [|by auto].
    apply precedes_elem_of in Hab as [_ Hb]. done.
Qed.

(** The same for the loop over the pairs. *)
Lemma for_pairs_establish {S X} (I : S → Prop) (R : X → X → S → Prop)
    (xs : list X) (body : X → X → M S unit) :
  (∀ x y s, precedes xs x y → I s →
     ∃ s', body x y s = (s', Ok tt) ∧ I s' ∧ R x y s' ∧ ∀ a b, R a b s → R a b s') →
  ∀ s, I s →
    ∃ s', for_pairs xs body s = (s', Ok tt) ∧ I s' ∧
          (∀ x y, precedes xs x y → R x y s') ∧ (∀ a b, R a b s → R a b s').
Proof.
  induction xs as [|x xs IH]; intros Hbody s Hs.
  - exists s. split_and!; [done..| |done].
    intros x y Hxy. inversion Hxy.
  - destruct (for_each_establish I (R x) (λ ab : X * X, R ab.1 ab.2)
                (x :: xs) (body x)) with (s := s)
      as (s1 & Hrun1 & HI1 & HR1 & _ & HQ1); [|done|].
    { intros y s0 Hy Hs0.
      destruct (Hbody x y s0 (precedes_here _ _ _ Hy) Hs0) as (s' & ? & ? & ? & Hst).
      exists s'. split_and!; [done..|by auto|]. intros [a b]. apply Hst. }
    destruct (IH (λ a b s0 Hab, Hbody a b s0 (precedes_later _ _ _ _ Hab)) s1 HI1)
      as (s2 & Hrun2 & HI2 & HR2 & Hst2).
    exists s2. split_and!; [|done| |].
    + simpl. simpl in Hrun1. by rewrite (bindM_Ok _ _ _ _ _ Hrun1).
    + intros a b Hab. inversion Hab; subst; auto.
    + intros a b Hab. apply Hst2. apply (HQ1 (a, b)). done.
Qed.

(** ** Iteration orders *)

Section Orders.
Context `{Countable K} (order : gset K → list K) (Horder : enumerates order).

Lemma elem_of_order (X : gset K) x : x ∈ order X ↔ x ∈ X.
Proof. by rewrite (Horder X), elem_of_elements. Qed.

Lemma NoDup_order (X : gset K) : NoDup (order X).
Proof. rewrite (Horder X). apply NoDup_elements. Qed.

End Orders.

Lemma enumerates_elements `{Countable K} : enumerates (elements (C := gset K)).
Proof. by intros X. Qed.

Lemma enumerates_order_by `{Countable K} (l : list K) : enumerates (order_by l).
Proof.
  intros X. unfold order_by. apply NoDup_Permutation.
  - apply NoDup_app. split_and!.
    + apply NoDup_filter, NoDup_remove_dups.
    + intros x [_ Hx]%list_elem_of_filter [Hx' _]%list_elem_of_filter.
      rewrite elem_of_remove_dups in Hx. done.
    + apply NoDup_filter, NoDup_elements.
  - apply NoDup_elements.
  - intros x. rewrite elem_of_app, !list_elem_of_filter, elem_of_remove_dups,
      elem_of_elements.
    destruct (decide (x ∈ l)); naive_solver.
Qed.

(** ** Dictionaries of dictionaries *)

Section Dict2.
Context {V : Type} `{Countable V} {X : Type}.
Implicit Types (m : gmap V (gmap V X)) (D : gset V).

Lemma get2_Ok m a b x :
  get2 m a b = Ok x ↔ ∃ row, m !! a = Some row ∧ row !! b = Some x.
Proof.
  unfold get2. split.
  - destruct (m !! a) as [row|]; [|done].
    destruct (row !! b) eqn:Hb; [|done]. intros [= ->]. eauto.
  - intros (row & -> & ->). done.
Qed.

Lemma get2_complete D m a b :
  complete D m → a ∈ D → b ∈ D → ∃ x, get2 m a b = Ok x.
Proof.
  intros [Hdom Hrows] Ha Hb.
  rewrite <-Hdom in Ha. apply elem_of_dom in Ha as [row Hrow].
  rewrite <-(Hrows _ _ Hrow) in Hb. apply elem_of_dom in Hb as [x Hx].
  exists x. apply get2_Ok. eauto.
Qed.

Lemma get2_Ok_dom D m a b x :
  complete D m → get2 m a b = Ok x → a ∈ D ∧ b ∈ D.
Proof.
  intros [Hdom Hrows] (row & Hrow & Hx)%get2_Ok. split.
  - rewrite <-Hdom. apply elem_of_dom. eauto.
  - rewrite <-(Hrows _ _ Hrow). apply elem_of_dom. eauto.
Qed.

Lemma get2_not_dom D m a b :
  complete D m → ¬ (a ∈ D ∧ b ∈ D) → get2 m a b = Raise KeyError.
Proof.
  intros Hc Hab. unfold get2.
  destruct (m !! a) as [row|] eqn:Hrow; [|done].
  destruct (row !! b) as [x|] eqn:Hx; [|done].
  destruct Hab. eapply get2_Ok_dom; [done|]. apply get2_Ok. eauto.
Qed.

(** Writing an entry of a complete dictionary. *)
Lemma set2_complete D m a b x :
  complete D m → a ∈ D → b ∈ D →
  ∃ m', set2 m a b x = Ok m' ∧ complete D m' ∧
        ∀ a' b', get2 m' a' b' =
                 if decide (a' = a ∧ b' = b) then Ok x else get2 m a' b'.
Proof.
  intros [Hdom Hrows] Ha Hb. unfold set2.
  assert (is_Some (m !! a)) as [row Hrow] by (apply elem_of_dom; by rewrite Hdom).
  rewrite Hrow. eexists. split; [done|]. split.
  - split.
    + rewrite dom_insert_L. rewrite Hdom. set_solver.
    + intros v row' Hv. destruct (decide (v = a)) as [->|Hne].
      * rewrite lookup_insert_eq in Hv. injection Hv as <-.
        rewrite dom_insert_L, (Hrows _ _ Hrow). set_solver.
      * rewrite lookup_insert_ne in Hv by done. eauto.
  - intros a' b'. unfold get2. destruct (decide (a' = a)) as [->|Hne].
    + rewrite lookup_insert_eq, Hrow. destruct (decide (b' = b)) as [->|Hne'].
      * rewrite lookup_insert_eq. by rewrite decide_True.
      * rewrite lookup_insert_ne by done. rewrite decide_False; [done|]. naive_solver.
    + rewrite lookup_insert_ne by done. rewrite decide_False; [done|]. naive_solver.
Qed.

End Dict2.

(** ** The methods of [Graph] on well-formed graphs *)

Section GraphBasics.
Context {V : Type} `{Countable V}.
Context (vorder : gset V → list V) (Hvorder : enumerates vorder).
Implicit Types (g : Graph V) (a b k v : V).

Lemma get_distance_wf g a b :
  Graph_wf g → a ∈ get_vertices g → b ∈ get_vertices g →
  get_distance g a b = Ok (distance g a b).
Proof.
  intros [_ Hd] Ha Hb. unfold distance.
  destruct (get2_complete _ _ a b Hd Ha Hb) as [x Hx].
  unfold get_distance. by rewrite Hx.
Qed.

Lemma get_edge_value_wf g a b :
  Graph_wf g → a ∈ get_vertices g → b ∈ get_vertices g →
  get_edge_value g (a, b) = Ok (edge_value g a b).
Proof.
  intros [Hv _] Ha Hb. unfold edge_value.
  destruct (get2_complete _ _ a b Hv Ha Hb) as [x Hx].
  unfold get_edge_value. simpl. by rewrite Hx.
Qed.

Lemma get_distance_Ok_vertices g a b d :
  Graph_wf g → get_distance g a b = Ok d →
  a ∈ get_vertices g ∧ b ∈ get_vertices g.
Proof. intros [_ Hd]. by apply get2_Ok_dom. Qed.

Lemma get_edge_value_Ok_vertices g a b x :
  Graph_wf g → get_edge_value g (a, b) = Ok x →
  a ∈ get_vertices g ∧ b ∈ get_vertices g.
Proof. intros [Hv _]. by apply get2_Ok_dom. Qed.

Lemma distance_outside g a b :
  Graph_wf g → ¬ (a ∈ get_vertices g ∧ b ∈ get_vertices g) → distance g a b = 0.
Proof.
  intros [_ Hd] Hab. unfold distance, get_distance.
  by rewrite (get2_not_dom _ _ _ _ Hd Hab).
Qed.

Lemma edge_value_outside g a b :
  Graph_wf g → ¬ (a ∈ get_vertices g ∧ b ∈ get_vertices g) → edge_value g a b = VNone.
Proof.
  intros [Hv _] Hab. unfold edge_value, get_edge_value. simpl.
  by rewrite (get2_not_dom _ _ _ _ Hv Hab).
Qed.

(** [set_distance] writes the two directions of one pair. *)
Lemma set_distance_spec g v1 v2 d :
  Graph_wf g → v1 ∈ get_vertices g → v2 ∈ get_vertices g →
  ∃ g', set_distance v1 v2 d g = (g', Ok tt) ∧ Graph_wf g' ∧
        values g' = values g ∧
        ∀ a b, distance g' a b =
               if decide (same_pair a b v1 v2) then d else distance g a b.
Proof.
  intros [Hv Hd] H1 H2. unfold set_distance.
  destruct (set2_complete _ _ v1 v2 d Hd H1 H2) as (m1 & -> & Hm1 & Hget1).
  destruct (set2_complete _ _ v2 v1 d Hm1 H2 H1) as (m2 & -> & Hm2 & Hget2).
  eexists. split; [done|]. split_and!; [done|done|].
  intros a b. unfold distance, get_distance. simpl.
  rewrite Hget2, Hget1. unfold same_pair.
  repeat case_decide; try done; naive_solver.
Qed.

(** [set_edge_value] without the recomputation of the distances. *)
Lemma set_edge_value_spec g v1 v2 value :
  Graph_wf g → v1 ∈ get_vertices g → v2 ∈ get_vertices g →
  ∃ g', set_edge_value vorder (v1, v2) value false g = (g', Ok tt) ∧
        Graph_wf g' ∧ get_vertices g' = get_vertices g ∧
        (∀ a b, edge_value g' a b =
                if decide (same_pair a b v1 v2) then value else edge_value g a b) ∧
        (∀ a b, distance g' a b =
                if decide (same_pair a b v1 v2 ∧ truthy value = true) then 1
                else distance g a b).
Proof.
  intros [Hv Hd] H1 H2. unfold set_edge_value.
  destruct (set2_complete _ _ v1 v2 value Hv H1 H2) as (m1 & -> & Hm1 & Hget1).
  destruct (set2_complete _ _ v2 v1 value Hm1 H2 H1) as (m2 & -> & Hm2 & Hget2).
  assert (Hdom2 : dom m2 = get_vertices g) by apply Hm2.
  assert (Hwf2 : Graph_wf (mkGraph m2 (distances g))).
  { split; unfold get_vertices; simpl; by rewrite Hdom2. }
  assert (Hval : ∀ a b, edge_value (mkGraph m2 (distances g)) a b =
            if decide (same_pair a b v1 v2) then value else edge_value g a b).
  { intros a b. unfold edge_value, get_edge_value. simpl.
    rewrite Hget2, Hget1. unfold same_pair.
    repeat case_decide; try done; naive_solver. }
  destruct (truthy value) eqn:Htr.
  - destruct (set_distance_spec (mkGraph m2 (distances g)) v1 v2 1 Hwf2)
      as (g' & Hrun & Hwf' & Hvals & Hdist).
    { unfold get_vertices. simpl. by rewrite Hdom2. }
    { unfold get_vertices. simpl. by rewrite Hdom2. }
    exists g'. split.
    { rewrite (bindM_Ok _ _ _ _ _ Hrun). done. }
    split; [done|]. split.
    { unfold get_vertices. rewrite Hvals. done. }
    split.
    + intros a b. rewrite <-Hval. unfold edge_value, get_edge_value.
      by rewrite Hvals.
    + intros a b. rewrite Hdist. repeat case_decide; try done; naive_solver.
  - eexists. split; [done|]. split; [done|]. split; [done|]. split; [done|].
    intros a b. rewrite decide_False by naive_solver. done.
Qed.

(** One relaxation step of Floyd-Warshall. *)
Lemma relax_spec g k v1 v2 :
  Graph_wf g → k ∈ get_vertices g → v1 ∈ get_vertices g → v2 ∈ get_vertices g →
  ∃ g', relax k v1 v2 g = (g', Ok tt) ∧ Graph_wf g' ∧ values g' = values g ∧
        ∀ a b, distance g' a b =
               if decide (same_pair a b v1 v2)
               then Z.min (distance g v1 v2) (distance g v1 k + distance g k v2)
               else distance g a b.
Proof.
  intros Hwf Hk H1 H2. unfold relax, bindM, readM.
  rewrite !get_distance_wf by done.
  by apply set_distance_spec.
Qed.

Lemma get_vertices_values g g' : values g' = values g → get_vertices g' = get_vertices g.
Proof. unfold get_vertices. by intros ->. Qed.

Lemma edge_value_values g g' a b : values g' = values g → edge_value g' a b = edge_value g a b.
Proof. unfold edge_value, get_edge_value. by intros ->. Qed.

(** A rule for [update_distances]: an invariant [I] of the relaxation steps
    holds at the end, and so does, for every pair of vertices, a property [R]
    that the relaxation of a pair establishes for it and that the other
    relaxations keep. *)
Lemma update_distances_rule (I : Graph V → Prop) (R : V → V → Graph V → Prop) g :
  Graph_wf g →
  (∀ k v1 v2 s s',
     k ∈ get_vertices g → v1 ∈ get_vertices g → v2 ∈ get_vertices g →
     Graph_wf s → values s = values g → I s →
     relax k v1 v2 s = (s', Ok tt) → Graph_wf s' → values s' = values g →
     (∀ a b, distance s' a b =
             if decide (same_pair a b v1 v2)
             then Z.min (distance s v1 v2) (distance s v1 k + distance s k v2)
             else distance s a b) →
     I s' ∧ R v1 v2 s' ∧ R v2 v1 s' ∧ ∀ a b, R a b s → R a b s') →
  I g →
  ∃ g', update_distances vorder g = (g', Ok tt) ∧ Graph_wf g' ∧
        values g' = values g ∧ I g' ∧
        (get_vertices g ≠ ∅ →
         ∀ a b, a ∈ get_vertices g → b ∈ get_vertices g → R a b g').
Proof.
  intros Hwf Hstep HI. unfold update_distances.
  set (vs := vorder (get_vertices g)).
  assert (Hvs : ∀ x, x ∈ vs ↔ x ∈ get_vertices g) by (intros; by apply elem_of_order).
  set (I' := λ s, Graph_wf s ∧ values s = values g ∧ I s).
  set (R' := λ a b s, R a b s ∧ R b a s).
  assert (Hpass : ∀ k s, k ∈ vs → I' s →
            ∃ s', for_pairs vs (relax k) s = (s', Ok tt) ∧ I' s' ∧
                  (∀ x y, precedes vs x y → R' x y s') ∧
                  (∀ a b, R' a b s → R' a b s')).
  { intros k s Hk Hs. apply (for_pairs_establish I' R'); [|done].
    intros x y s0 [Hx Hy]%precedes_elem_of (Hwf0 & Hval0 & HI0).
    apply Hvs in Hk, Hx, Hy.
    destruct (relax_spec s0 k x y) as (s' & Hrun & Hwf' & Hval' & Hd);
      rewrite ?(get_vertices_values _ _ Hval0); try done.
    rewrite Hval0 in Hval'.
    destruct (Hstep k x y s0 s') as (? & ? & ? & Hst); try done.
    exists s'. split; [done|]. split; [done|]. split; [done|].
    intros a b [??]. split; by apply Hst. }
  destruct (for_each_establish I' (λ (_ : V) s, ∀ x y, precedes vs x y → R' x y s)
              (λ ab : V * V, R' ab.1 ab.2) vs (λ k, for_pairs vs (relax k)))
    with (s := g) as (g' & Hrun & (Hwf' & Hval' & HI') & HR & _ & _).
  { intros k s Hk Hs. destruct (Hpass k s Hk Hs) as (s' & ? & ? & HR' & Hst).
    exists s'. split; [done|]. split; [done|]. split; [done|]. split.
    - intros _ Hall x y Hxy. by apply Hst, Hall.
    - intros [a b]. apply Hst. }
  { done. }
  exists g'. split_and!; try done.
  intros Hne a b Ha Hb.
  assert (∃ k, k ∈ vs) as [k Hk].
  { apply set_choose_L in Hne as [k Hk]. exists k. by apply Hvs. }
  destruct (precedes_total vs a b) as [Hab|Hab]; try by apply Hvs.
  - by apply (HR k Hk a b Hab).
  - by apply (HR k Hk b a Hab).
Qed.

End GraphBasics.

(** ** [update_distances]: symmetry, monotonicity, diagonal *)

Section UpdateDistances.
Context {V : Type} `{Countable V}.
Context (vorder : gset V → list V) (Hvorder : enumerates vorder).
Implicit Types (g : Graph V) (a b k v : V).

Lemma get_distance_outside g a b :
  Graph_wf g → ¬ (a ∈ get_vertices g ∧ b ∈ get_vertices g) →
  get_distance g a b = Raise KeyError.
Proof. intros [_ Hd] Hab. by apply (get2_not_dom _ _ _ _ Hd). Qed.

(** On a well-formed graph [update_distances] raises nothing and changes
    only distances.  The distances are symmetric afterwards; if they were
    symmetric before, none has grown; non-negative distances stay so, and a
    zero diagonal of a non-negative matrix stays zero. *)
Lemma update_distances_basic g :
  Graph_wf g →
  ∃ g', update_distances vorder g = (g', Ok tt) ∧ Graph_wf g' ∧
        values g' = values g ∧
        (∀ a b, distance g' a b = distance g' b a) ∧
        ((∀ a b, distance g a b = distance g b a) →
         ∀ a b, distance g' a b ≤ distance g a b) ∧
        ((∀ a b, 0 ≤ distance g a b) →
         (∀ a b, 0 ≤ distance g' a b) ∧
         ((∀ v, distance g v v = 0) → ∀ v, distance g' v v = 0)).
Proof.
  intros Hwf.
  set (I := λ s : Graph V,
         ((∀ a b, distance g a b = distance g b a) →
          (∀ a b, distance s a b = distance s b a) ∧
          (∀ a b, distance s a b ≤ distance g a b)) ∧
         ((∀ a b, 0 ≤ distance g a b) →
          (∀ a b, 0 ≤ distance s a b) ∧
          ((∀ v, distance g v v = 0) → ∀ v, distance s v v = 0))).
  set (R := λ a b (s : Graph V), distance s a b = distance s b a).
  destruct (update_distances_rule vorder Hvorder I R g Hwf)
    as (g' & Hrun & Hwf' & Hval' & [Hle Hnn] & Hsym).
  - intros k v1 v2 s s' Hk H1 H2 Hwfs Hvals [HIle HInn] _ Hwfs' Hvals' Hd.
    assert (Hsymstep : ∀ a b, distance s a b = distance s b a →
                              distance s' a b = distance s' b a).
    { intros a b. rewrite !Hd. unfold same_pair.
      repeat case_decide; try done; naive_solver. }
    split; [split|split; [|split]].
    + intros Hg. destruct (HIle Hg) as [Hs Hles]. split; [by auto|].
      intros a b. rewrite Hd. case_decide as Hp; [|done].
      etrans; [apply Z.le_min_l|].
      destruct Hp as [[-> ->]|[-> ->]]; [done|]. rewrite Hs. done.
    + intros Hg. destruct (HInn Hg) as [Hs Hdiag]. split.
      * intros a b. rewrite Hd. case_decide; [|done].
        apply Z.min_glb; [done|]. by apply Z.add_nonneg_nonneg.
      * intros Hg0 v. rewrite Hd. case_decide as Hp; [|by auto].
        assert (v1 = v ∧ v2 = v) as [-> ->] by (destruct Hp; naive_solver).
        rewrite (Hdiag Hg0). apply Z.min_l. by apply Z.add_nonneg_nonneg.
    + unfold R. rewrite !Hd. unfold same_pair.
      repeat case_decide; try done; naive_solver.
    + unfold R. rewrite !Hd. unfold same_pair.
      repeat case_decide; try done; naive_solver.
    + apply Hsymstep.
  - split; [done|]. intros Hg. split; [done|]. done.
  - exists g'. split_and!; try done.
    + intros a b. destruct (decide (a ∈ get_vertices g ∧ b ∈ get_vertices g)) as [[Ha Hb]|Hn].
      * apply Hsym; [set_solver|done..].
      * rewrite !(distance_outside g'); try done;
          rewrite (get_vertices_values _ _ Hval'); naive_solver.
    + intros Hg. by apply Hle.
Qed.

End UpdateDistances.

(** ** [set_edge_value] with the recomputation of the distances *)

Section SetEdgeValueUpdate.
Context {V : Type} `{Countable V}.
Context (vorder : gset V → list V) (Hvorder : enumerates vorder).

(** With [update=True], the distances are recomputed after the write of a
    truthy value. *)
Lemma set_edge_value_true_unfold (g : Graph V) e value :
  set_edge_value vorder e value true g =
  (set_edge_value vorder e value false >>>
   (if truthy value then update_distances vorder else retM tt)) g.
Proof.
  destruct e as [v1 v2]. unfold set_edge_value, bindM.
  destruct (set2 (values g) v1 v2 value) as [m1|]; [|done].
  destruct (set2 m1 v2 v1 value) as [m2|]; [|done].
  destruct (truthy value); [|done].
  by destruct (set_distance v1 v2 1 _) as [g' [[]|]].
Qed.

Lemma set_edge_value_update_spec (g : Graph V) v1 v2 value :
  Graph_wf g → v1 ∈ get_vertices g → v2 ∈ get_vertices g →
  ∃ g', set_edge_value vorder (v1, v2) value true g = (g', Ok tt) ∧
        Graph_wf g' ∧ get_vertices g' = get_vertices g ∧
        ∀ a b, edge_value g' a b =
               if decide (same_pair a b v1 v2) then value else edge_value g a b.
Proof.
  intros Hwf H1 H2. rewrite set_edge_value_true_unfold.
  destruct (set_edge_value_spec vorder g v1 v2 value Hwf H1 H2)
    as (g1 & Hrun1 & Hwf1 & Hv1 & Hval1 & _).
  rewrite (bindM_Ok _ _ _ _ _ Hrun1).
  destruct (truthy value).
  - destruct (update_distances_basic vorder Hvorder g1 Hwf1)
      as (g2 & Hrun2 & Hwf2 & Hval2 & _).
    exists g2. split; [done|]. split; [done|]. split.
    + by rewrite (get_vertices_values _ _ Hval2).
    + intros a b. by rewrite (edge_value_values _ _ _ _ Hval2).
  - by exists g1.
Qed.

End SetEdgeValueUpdate.

(** ** [get_edges] *)

Section GetEdges.
Context {V : Type} `{Countable V}.
Context (vorder : gset V → list V) (Hvorder : enumerates vorder).
Implicit Types (g : Graph V) (a b : V).

(** The keys of [get_edges()] are the pairs [(a, b)] with a truthy value
    such that [a] comes first in the enumeration of the vertices. *)
Lemma get_edges_spec g :
  Graph_wf g →
  ∃ edges,
    get_edges vorder false g = Ok edges ∧
    ∀ a b v, edges !! (a, b) = Some v ↔
             precedes (vorder (get_vertices g)) a b ∧
             edge_value g a b = v ∧ truthy v = true.
Proof.
  intros Hwf. unfold get_edges.
  set (vs := vorder (get_vertices g)).
  set (body := λ (v1 v2 : V) (edges : gmap (V * V) Val), _).
  set (I := λ s : gmap (V * V) Val,
         ∀ a b v, s !! (a, b) = Some v →
                  precedes vs a b ∧ edge_value g a b = v ∧ truthy v = true).
  set (R := λ a b (s : gmap (V * V) Val),
         truthy (edge_value g a b) = true → s !! (a, b) = Some (edge_value g a b)).
  destruct (for_pairs_establish I R vs body) with (s := (∅ : gmap (V * V) Val))
    as (edges & Hrun & HI & HR & _).
  - intros x y s Hxy Hs.
    destruct (precedes_elem_of _ _ _ Hxy) as
      [Hx%(elem_of_order _ Hvorder) Hy%(elem_of_order _ Hvorder)].
    unfold body. rewrite (get_edge_value_wf g x y) by done.
    destruct (truthy (edge_value g x y)) eqn:Htr.
    + eexists. split; [done|]. split_and!.
      * intros a b v. destruct (decide ((x, y) = (a, b))) as [[= <- <-]|Hne].
        -- rewrite lookup_insert_eq. intros [= <-]. done.
        -- rewrite lookup_insert_ne by done. apply Hs.
      * intros _. by rewrite lookup_insert_eq.
      * intros a b HRab Hab. destruct (decide ((x, y) = (a, b))) as [[= <- <-]|Hne].
        -- by rewrite lookup_insert_eq.
        -- rewrite lookup_insert_ne by done. by apply HRab.
    + exists s. split; [done|]. split_and!; [done| |done].
      intros ?. congruence.
  - intros a b v. by rewrite lookup_empty.
  - exists edges. rewrite Hrun. split; [done|].
    intros a b v. split; [apply HI|].
    intros (Hab & <- & Htr). by apply HR.
Qed.

(** The key of an edge orders its end points as the enumeration does, so
    that an edge has one key. *)
Lemma get_edges_vertices g edges a b v :
  Graph_wf g → get_edges vorder false g = Ok edges → edges !! (a, b) = Some v →
  a ∈ get_vertices g ∧ b ∈ get_vertices g ∧ get_edge_value g (a, b) = Ok v.
Proof.
  intros Hwf Hedges Hv.
  destruct (get_edges_spec g Hwf) as (edges' & Hrun & Hspec).
  rewrite Hedges in Hrun. injection Hrun as <-.
  apply Hspec in Hv as (Hab & <- & _).
  destruct (precedes_elem_of _ _ _ Hab) as
    [Ha%(elem_of_order _ Hvorder) Hb%(elem_of_order _ Hvorder)].
  split_and!; [done..|]. by apply get_edge_value_wf.
Qed.

End GetEdges.

(** ** The conversion of an edge value to a channel *)

Lemma py_str_int_unfold z :
  py_str_int z =
  match z with
  | Z0 => String "0"%char EmptyString
  | Zpos p => NilEmpty.string_of_uint (Pos.to_uint p)
  | Zneg p => String "-"%char (NilEmpty.string_of_uint (Pos.to_uint p))
  end.
Proof.
  destruct z as [|p|p]; [done| |].
  - unfold py_str_int. simpl. unfold NilZero.string_of_uint.
    destruct (Pos.to_uint p) eqn:E; try done.
    by apply DecimalPos.Unsigned.to_uint_nonnil in E.
  - unfold py_str_int. simpl. unfold NilZero.string_of_uint.
    destruct (Pos.to_uint p) eqn:E; try done.
    by apply DecimalPos.Unsigned.to_uint_nonnil in E.
Qed.

Lemma lstrip_no_space s : no_space s = true → lstrip s = s.
Proof.
  destruct s as [|a rest]; [done|]. simpl.
  intros [Ha _]%andb_true_iff. by destruct (is_space a).
Qed.

Lemma rstrip_no_space s : no_space s = true → rstrip s = s.
Proof.
  induction s as [|a rest IH]; [done|]. simpl.
  intros [Ha Hrest]%andb_true_iff. rewrite (IH Hrest).
  destruct rest; [|done]. by destruct (is_space a).
Qed.

Lemma strip_no_space s : no_space s = true → strip s = s.
Proof.
  intros Hs. unfold strip. rewrite (lstrip_no_space s Hs). by apply rstrip_no_space.
Qed.

Lemma no_space_string_of_uint d : no_space (NilEmpty.string_of_uint d) = true.
Proof. induction d; simpl; done. Qed.

Lemma digits_value_string_of_uint d :
  d ≠ Decimal.Nil →
  digits_value (NilEmpty.string_of_uint d) = Some (Z.of_uint d).
Proof.
  intros Hd. unfold digits_value. rewrite NilEmpty.usu.
  destruct d; done.
Qed.

Lemma py_int_of_string_uint d :
  d ≠ Decimal.Nil →
  py_int_of_string (NilEmpty.string_of_uint d) = Ok (Z.of_uint d).
Proof.
  intros Hd. unfold py_int_of_string.
  rewrite strip_no_space by apply no_space_string_of_uint.
  assert (Hdv := digits_value_string_of_uint d Hd).
  destruct d; try done; simpl in *; by rewrite Hdv.
Qed.

Lemma Z_of_uint_to_uint p : Z.of_uint (Pos.to_uint p) = Z.pos p.
Proof. unfold Z.of_uint. by rewrite DecimalPos.Unsigned.of_to. Qed.

(** [int(str(n)) == n] for every integer [n]. *)
Lemma py_int_of_str z : py_int_of_string (py_str_int z) = Ok z.
Proof.
  rewrite py_str_int_unfold. destruct z as [|p|p].
  - done.
  - rewrite py_int_of_string_uint by apply DecimalPos.Unsigned.to_uint_nonnil.
    by rewrite Z_of_uint_to_uint.
  - unfold py_int_of_string.
    rewrite strip_no_space by (simpl; apply no_space_string_of_uint).
    rewrite digits_value_string_of_uint by apply DecimalPos.Unsigned.to_uint_nonnil.
    simpl. by rewrite Z_of_uint_to_uint.
Qed.

(** [str(n)] is never empty, hence truthy. *)
Lemma truthy_py_str_int z : truthy (VStr (py_str_int z)) = true.
Proof.
  rewrite py_str_int_unfold. destruct z as [|p|p]; [done| |done].
  simpl. destruct (Pos.to_uint p) eqn:E; try done.
  by apply DecimalPos.Unsigned.to_uint_nonnil in E.
Qed.

Section EdgeChannel.
Context (norder : gset string → list string).

(** [edge_channel] in terms of the dictionary of the edges. *)
Lemma edge_channel_unfold (g : NetGraph) e edges :
  get_edges norder false g = Ok edges →
  edge_channel norder g e =
  match edges !! e with
  | None => Raise KeyError
  | Some value =>
      match py_int value with
      | Raise TypeError => Raise (CHANError value e)
      | r => r
      end
  end.
Proof.
  intros Hedges. unfold edge_channel. rewrite Hedges. simpl.
  destruct (edges !! e) as [value|] eqn:He; [|done].
  by destruct (py_int value) as [z|[]].
Qed.

Lemma edge_channel_Ok (g : NetGraph) e edges value c :
  get_edges norder false g = Ok edges → edges !! e = Some value →
  py_int value = Ok c → edge_channel norder g e = Ok c.
Proof.
  intros Hedges He Hc. rewrite (edge_channel_unfold g e edges Hedges), He, Hc. done.
Qed.

End EdgeChannel.

(** ** Loops that may raise *)

Lemma for_each_cons_Ok {S X} (x : X) (xs : list X) (body : X → M S unit) s s' :
  for_each (x :: xs) body s = (s', Ok tt) →
  ∃ s1, body x s = (s1, Ok tt) ∧ for_each xs body s1 = (s', Ok tt).
Proof.
  simpl. unfold bindM. destruct (body x s) as [s1 [[]|e]]; [|done].
  intros Hrest. by exists s1.
Qed.

(** What a loop that has ended without raising has established. *)
Lemma for_each_establish_partial {S X} (I : S → Prop) (R : X → S → Prop)
    (xs : list X) (body : X → M S unit) :
  (∀ x s s', x ∈ xs → I s → body x s = (s', Ok tt) →
     I s' ∧ R x s' ∧ ∀ y, R y s → R y s') →
  ∀ s s', I s → for_each xs body s = (s', Ok tt) →
    I s' ∧ ∀ x, x ∈ xs → R x s'.
Proof.
  intros Hbody.
  assert (Hgen : ∀ s s', I s → for_each xs body s = (s', Ok tt) →
            I s' ∧ (∀ x, x ∈ xs → R x s') ∧ ∀ y, R y s → R y s').
  { induction xs as [|x xs IH]; intros s s' Hs Hrun.
    - injection Hrun as <-. split_and!; [done| |done].
      intros x Hx. by apply elem_of_nil in Hx.
    - apply for_each_cons_Ok in Hrun as (s1 & Hrun1 & Hrun2).
      destruct (Hbody x s s1 (list_elem_of_here _ _) Hs Hrun1) as (HI1 & HR1 & Hst1).
      destruct (IH (λ y s0 s0' Hy, Hbody y s0 s0' (list_elem_of_further _ _ _ Hy))
                  s1 s' HI1 Hrun2) as (HI2 & HR2 & Hst2).
      split_and!; [done| |by auto].
      intros y [->|Hy]%elem_of_cons; auto. }
  intros s s' Hs Hrun. destruct (Hgen s s' Hs Hrun) as (? & ? & _). done.
Qed.

(** ** The two-hop model is local and symmetric *)

Section TwoHopModel.
Context (norder : gset string → list string).

Lemma edge_channel_lookup (g : NetGraph) e :
  edge_channel norder g e =
  (value <~ edge_lookup norder g e;
   match py_int value with
   | Raise TypeError => (raw <~ edge_lookup norder g e; Raise (CHANError raw e))
   | r => r
   end).
Proof.
  unfold edge_channel, edge_lookup.
  destruct (get_edges norder false g) as [edges|]; [|done]. simpl.
  destruct (edges !! e) as [value|]; [|done]. simpl.
  by destruct (py_int value) as [|[]].
Qed.

Lemma edge_channel_local (g g' : NetGraph) e :
  edge_lookup norder g e = edge_lookup norder g' e →
  edge_channel norder g e = edge_channel norder g' e.
Proof. intros Heq. rewrite !edge_channel_lookup. by rewrite Heq. Qed.

Lemma min_hop_count_local (g g' : NetGraph) e1 e2 :
  (∀ a b, get_distance g a b = get_distance g' a b) →
  min_hop_count g e1 e2 = min_hop_count g' e1 e2.
Proof. intros Hd. unfold min_hop_count. by rewrite !Hd. Qed.

Lemma min_hop_count_symmetric (g : NetGraph) e1 e2 m :
  distances_symmetric g →
  min_hop_count g e1 e2 = Ok m → min_hop_count g e2 e1 = Ok m.
Proof.
  intros Hsym. unfold min_hop_count.
  rewrite (Hsym e2.1 e1.1), (Hsym e2.1 e1.2), (Hsym e2.2 e1.1), (Hsym e2.2 e1.2).
  destruct (get_distance g e1.1 e2.1) as [h1|]; [|done].
  destruct (get_distance g e1.1 e2.2) as [h2|]; [|done].
  destruct (get_distance g e1.2 e2.1) as [h3|]; [|done].
  destruct (get_distance g e1.2 e2.2) as [h4|]; [|done].
  simpl. intros [= <-]. f_equal. lia.
Qed.

Lemma two_hop_local : im_local norder (two_hop.get_interference norder).
Proof.
  intros g g' e1 e2 Hd H1 H2. unfold two_hop.get_interference.
  rewrite (edge_channel_local g g' e1 H1), (edge_channel_local g g' e2 H2).
  by rewrite (min_hop_count_local g g' e1 e2 Hd).
Qed.

Lemma two_hop_symmetric : im_symmetric (two_hop.get_interference norder).
Proof.
  intros g e1 e2 w Hsym. unfold two_hop.get_interference.
  destruct (decide (e1 = e2)) as [->|Hne].
  { by rewrite decide_True. }
  rewrite (decide_False (P := e2 = e1)) by done.
  destruct (edge_channel norder g e1) as [c1|]; [|done].
  destruct (edge_channel norder g e2) as [c2|]; [|done]. simpl.
  destruct (decide (c1 ≠ c2)) as [Hc|Hc].
  { rewrite decide_True by done. done. }
  rewrite (decide_False (P := c2 ≠ c1)) by naive_solver.
  destruct (min_hop_count g e1 e2) as [m|] eqn:Hm; [|done].
  by rewrite (min_hop_count_symmetric g e1 e2 m Hsym Hm).
Qed.

Lemma two_hop_frac_local : im_local norder (two_hop_frac.get_interference norder).
Proof.
  intros g g' e1 e2 Hd H1 H2. unfold two_hop_frac.get_interference.
  rewrite (edge_channel_local g g' e1 H1), (edge_channel_local g g' e2 H2).
  by rewrite (min_hop_count_local g g' e1 e2 Hd).
Qed.

Lemma two_hop_frac_symmetric : im_symmetric (two_hop_frac.get_interference norder).
Proof.
  intros g e1 e2 w Hsym. unfold two_hop_frac.get_interference.
  destruct (decide (e1 = e2)) as [->|Hne].
  { by rewrite decide_True. }
  rewrite (decide_False (P := e2 = e1)) by done.
  destruct (edge_channel norder g e1) as [c1|]; [|done].
  destruct (edge_channel norder g e2) as [c2|]; [|done]. cbn [bindR].
  destruct (two_hop_frac.frequencies !! c1) as [f1|]; [|done].
  destruct (two_hop_frac.frequencies !! c2) as [f2|]; [|done].
  replace (Z.abs (f2 - f1)) with (Z.abs (f1 - f2)) by lia.
  destruct (two_hop_frac.MIN_FREQ_DIFF <=? Z.abs (f1 - f2)); [done|].
  destruct (min_hop_count g e1 e2) as [m|] eqn:Hm; [|done].
  by rewrite (min_hop_count_symmetric g e1 e2 m Hsym Hm).
Qed.

End TwoHopModel.

(** ** [update_distances] reads and writes the distances only *)

Lemma for_each_sim {S S' X} (Rel : S → S' → Prop) (xs : list X)
    (body : X → M S unit) (body' : X → M S' unit) :
  (∀ x s s', Rel s s' →
     Rel (body x s).1 (body' x s').1 ∧ (body x s).2 = (body' x s').2) →
  ∀ s s', Rel s s' →
    Rel (for_each xs body s).1 (for_each xs body' s').1 ∧
    (for_each xs body s).2 = (for_each xs body' s').2.
Proof.
  intros Hbody. induction xs as [|x xs IH]; intros s s' Hrel; [done|].
  simpl. unfold bindM. destruct (Hbody x s s' Hrel) as [Hrel1 Hres1].
  destruct (body x s) as [s1 r1], (body' x s') as [s1' r1']. simpl in *. subst r1'.
  destruct r1 as [[]|e]; [|done]. by apply IH.
Qed.

Lemma for_pairs_sim {S S' X} (Rel : S → S' → Prop) (xs : list X)
    (body : X → X → M S unit) (body' : X → X → M S' unit) :
  (∀ x y s s', Rel s s' →
     Rel (body x y s).1 (body' x y s').1 ∧ (body x y s).2 = (body' x y s').2) →
  ∀ s s', Rel s s' →
    Rel (for_pairs xs body s).1 (for_pairs xs body' s').1 ∧
    (for_pairs xs body s).2 = (for_pairs xs body' s').2.
Proof.
  intros Hbody. induction xs as [|x xs IH]; intros s s' Hrel; [done|].
  cbn [for_pairs]. unfold bindM.
  destruct (for_each_sim Rel (x :: xs) (body x) (body' x) (Hbody x) s s' Hrel)
    as [Hrel1 Hres1].
  destruct (for_each (x :: xs) (body x) s) as [s1 r1],
           (for_each (x :: xs) (body' x) s') as [s1' r1']. simpl in *. subst r1'.
  destruct r1 as [[]|e]; [|done]. by apply IH.
Qed.

Section DistancesOnly.
Context {V : Type} `{Countable V}.
Context (vorder : gset V → list V) (Hvorder : enumerates vorder).
Implicit Types (g : Graph V).

Lemma relax_sim k v1 v2 g g' :
  distances g = distances g' →
  distances (relax k v1 v2 g).1 = distances (relax k v1 v2 g').1 ∧
  (relax k v1 v2 g).2 = (relax k v1 v2 g').2.
Proof.
  intros Hd. unfold relax, bindM, readM, get_distance, set_distance. rewrite Hd.
  destruct (get2 (distances g') v1 v2) as [d12|]; [|done].
  destruct (get2 (distances g') v1 k) as [d1k|]; [|done].
  destruct (get2 (distances g') k v2) as [dk2|]; [|done].
  destruct (set2 (distances g') v1 v2 _) as [dm1|]; [|done].
  destruct (set2 dm1 v2 v1 _) as [dm2|]; done.
Qed.

Lemma update_distances_sim g g' :
  get_vertices g = get_vertices g' → distances g = distances g' →
  distances (update_distances vorder g).1 = distances (update_distances vorder g').1 ∧
  (update_distances vorder g).2 = (update_distances vorder g').2.
Proof.
  intros Hv Hd. unfold update_distances. rewrite Hv.
  apply (for_each_sim (λ s s' : Graph V, distances s = distances s')); [|done].
  intros k s s' Hrel.
  apply (for_pairs_sim (λ s s' : Graph V, distances s = distances s')); [|done].
  intros x y s0 s0' Hrel0. by apply relax_sim.
Qed.

Lemma set2_same {X} (m : gmap V (gmap V X)) a b x :
  get2 m a b = Ok x → set2 m a b x = Ok m.
Proof.
  intros (row & Hrow & Hx)%get2_Ok. unfold set2. rewrite Hrow.
  f_equal. rewrite (insert_id row) by done. by apply insert_id.
Qed.

Lemma set_distance_same g v1 v2 d :
  get_distance g v1 v2 = Ok d → get_distance g v2 v1 = Ok d →
  set_distance v1 v2 d g = (g, Ok tt).
Proof.
  unfold get_distance, set_distance. intros H1 H2.
  rewrite (set2_same _ _ _ _ H1), (set2_same _ _ _ _ H2). by destruct g.
Qed.

(** Writing a truthy value on a link whose distance is 1, in a graph whose
    distances are up to date, changes no distance. *)
Lemma set_edge_value_up_to_date g v1 v2 value :
  Graph_wf g → v1 ∈ get_vertices g → v2 ∈ get_vertices g →
  update_distances vorder g = (g, Ok tt) →
  get_distance g v1 v2 = Ok 1 → get_distance g v2 v1 = Ok 1 →
  ∃ g', set_edge_value vorder (v1, v2) value true g = (g', Ok tt) ∧
        Graph_wf g' ∧ get_vertices g' = get_vertices g ∧
        distances g' = distances g ∧
        ∀ a b, edge_value g' a b =
               if decide (same_pair a b v1 v2) then value else edge_value g a b.
Proof.
  intros Hwf H1 H2 Hfix Hd12 Hd21.
  destruct (set_edge_value_update_spec vorder Hvorder g v1 v2 value Hwf H1 H2)
    as (g' & Hrun & Hwf' & Hv' & Hval').
  exists g'. split_and!; try done.
  revert Hrun. rewrite set_edge_value_true_unfold. unfold bindM.
  assert (Hd1 : distances (set_edge_value vorder (v1, v2) value false g).1 = distances g).
  { unfold set_edge_value.
    destruct (set2 (values g) v1 v2 value) as [m1|]; [|done].
    destruct (set2 m1 v2 v1 value) as [m2|]; [|done].
    destruct (truthy value); [|done].
    unfold bindM. rewrite set_distance_same by done. done. }
  destruct (set_edge_value_spec vorder g v1 v2 value Hwf H1 H2)
    as (g1 & Hrun1 & Hwf1 & Hv1 & _).
  rewrite Hrun1 in Hd1 |- *. simpl in Hd1.
  destruct (truthy value).
  - destruct (update_distances_sim g1 g Hv1 Hd1) as [Hsim _].
    rewrite Hfix in Hsim. simpl in Hsim.
    intros Hrun. rewrite Hrun in Hsim. done.
  - intros [= <-]. done.
Qed.

End DistancesOnly.

(** ** Claim C8 *)

Section ClaimC8.
Context {V : Type} `{Countable V}.
Context (vorder : gset V → list V) (Hvorder : enumerates vorder).

Lemma distance_symmetric_view (g : Graph V) :
  distances_symmetric g → ∀ a b, distance g a b = distance g b a.
Proof. intros Hs a b. unfold distance. by rewrite (Hs a b). Qed.

(** C8 (as amended).  On every graph [update_distances] succeeds, and
    afterwards [distance(a,b) = distance(b,a)] for every pair of vertices.
    If the distances were symmetric before the call, no distance entry has
    increased.  [distance(v,v) = 0] holds afterwards for every vertex [v]
    when, before the call, no entry was negative and every self-distance
    was 0. *)
Theorem update_distances_symmetric_monotone (g : Graph V) :
  Graph_wf g →
  ∃ g',
    update_distances vorder g = (g', Ok tt) ∧
    get_vertices g' = get_vertices g ∧
    (∀ a b, get_distance g' a b = get_distance g' b a) ∧
    (distances_symmetric g →
     ∀ a b d, get_distance g a b = Ok d →
              ∃ d', get_distance g' a b = Ok d' ∧ d' ≤ d) ∧
    ((∀ a b d, get_distance g a b = Ok d → 0 ≤ d) →
     (∀ v, v ∈ get_vertices g → get_distance g v v = Ok 0) →
     ∀ v, v ∈ get_vertices g → get_distance g' v v = Ok 0).
Proof.
  intros Hwf.
  destruct (update_distances_basic vorder Hvorder g Hwf)
    as (g' & Hrun & Hwf' & Hval & Hsym & Hle & Hnn).
  assert (Hverts := get_vertices_values _ _ Hval).
  exists g'. split_and!; try done.
  - intros a b.
    destruct (decide (a ∈ get_vertices g' ∧ b ∈ get_vertices g')) as [[Ha Hb]|Hn].
    + rewrite !get_distance_wf by done. by rewrite Hsym.
    + rewrite !get_distance_outside; naive_solver.
  - intros Hs a b d Hd.
    destruct (get_distance_Ok_vertices _ _ _ _ Hwf Hd) as [Ha Hb].
    exists (distance g' a b). split.
    + apply get_distance_wf; by rewrite ?Hverts.
    + etrans; [apply Hle; by apply distance_symmetric_view|].
      unfold distance. by rewrite Hd.
  - intros Hge Hdiag v Hv.
    assert (Hnn0 : ∀ a b, 0 ≤ distance g a b).
    { intros a b. unfold distance. destruct (get_distance g a b) eqn:E; [|done]. eauto. }
    assert (Hd0 : ∀ x, distance g x x = 0).
    { intros x. destruct (decide (x ∈ get_vertices g)).
      - unfold distance. by rewrite Hdiag.
      - apply distance_outside; naive_solver. }
    destruct (Hnn Hnn0) as [_ Hz].
    rewrite get_distance_wf by (by rewrite ?Hverts). by rewrite (Hz Hd0).
Qed.

End ClaimC8.

(** C8, witness on the path a - b - c whose distances are not yet
    computed. *)
Lemma update_distances_symmetric_monotone_witness :
  ∃ g',
    update_distances (order_by ["a"; "c"; "b"]%string) Examples.stale_path = (g', Ok tt) ∧
    get_vertices g' = get_vertices Examples.stale_path ∧
    (∀ a b, get_distance g' a b = get_distance g' b a) ∧
    (distances_symmetric Examples.stale_path →
     ∀ a b d, get_distance Examples.stale_path a b = Ok d →
              ∃ d', get_distance g' a b = Ok d' ∧ d' ≤ d) ∧
    ((∀ a b d, get_distance Examples.stale_path a b = Ok d → 0 ≤ d) →
     (∀ v, v ∈ get_vertices Examples.stale_path →
           get_distance Examples.stale_path v v = Ok 0) →
     ∀ v, v ∈ get_vertices Examples.stale_path → get_distance g' v v = Ok 0).
Proof.
  apply (update_distances_symmetric_monotone _ (enumerates_order_by _)).
  decide_by_computation.
Defined.

(** C8 as stated fails: after [set_edge_value(("a", "a"), 40)], which runs
    [update_distances], and after one more [update_distances], the distance
    from a to itself is 1. *)
Lemma update_distances_diagonal_counterexample :
  Graph_wf Examples.loop_graph ∧
  update_distances elements Examples.loop_graph = (Examples.loop_graph, Ok tt) ∧
  "a"%string ∈ get_vertices Examples.loop_graph ∧
  get_distance Examples.loop_graph "a"%string "a"%string = Ok 1.
Proof.
  split_and!.
  - decide_by_computation.
  - decide_by_computation.
  - decide_by_computation.
  - decide_by_computation.
Qed.

(** ** Claim C3 *)

Section ClaimC3.
Context (norder : gset string → list string) (Hnorder : enumerates norder).

Lemma min_hop_count_wf (g : NetGraph) (e1 e2 : Edge) :
  Graph_wf g →
  e1.1 ∈ get_vertices g → e1.2 ∈ get_vertices g →
  e2.1 ∈ get_vertices g → e2.2 ∈ get_vertices g →
  min_hop_count g e1 e2 =
  Ok (Z.min (Z.min (Z.min (distance g e1.1 e2.1) (distance g e1.1 e2.2))
                   (distance g e1.2 e2.1))
            (distance g e1.2 e2.2)).
Proof.
  intros Hwf ? ? ? ?. unfold min_hop_count.
  by rewrite !get_distance_wf.
Qed.

(** C3.  For two edges of a graph (keys of [get_edges()]) whose values
    parse as integer channels, the binary two-hop model returns 1 when the
    edges are distinct, the channels are equal and the minimum of the four
    hop distances between their end points is less than 2, and 0 in every
    other case. *)
Theorem two_hop_get_interference_iff (g : NetGraph) (e1 e2 : Edge)
    (edges : gmap Edge Val) (v1 v2 : Val) (c1 c2 : Z) :
  Graph_wf g →
  get_edges norder false g = Ok edges →
  edges !! e1 = Some v1 → edges !! e2 = Some v2 →
  py_int v1 = Ok c1 → py_int v2 = Ok c2 →
  ∃ h1 h2 h3 h4,
    get_distance g e1.1 e2.1 = Ok h1 ∧ get_distance g e1.1 e2.2 = Ok h2 ∧
    get_distance g e1.2 e2.1 = Ok h3 ∧ get_distance g e1.2 e2.2 = Ok h4 ∧
    two_hop.get_interference norder g e1 e2 =
    Ok (VInt (if decide (e1 ≠ e2 ∧ c1 = c2 ∧
                         Z.min (Z.min (Z.min h1 h2) h3) h4 < 2)
              then 1 else 0)).
Proof.
  intros Hwf Hedges He1 He2 Hc1 Hc2.
  destruct e1 as [a1 b1], e2 as [a2 b2].
  destruct (get_edges_vertices norder Hnorder g edges a1 b1 v1) as (Ha1 & Hb1 & _); [done..|].
  destruct (get_edges_vertices norder Hnorder g edges a2 b2 v2) as (Ha2 & Hb2 & _); [done..|].
  exists (distance g a1 a2), (distance g a1 b2), (distance g b1 a2), (distance g b1 b2).
  simpl. rewrite !get_distance_wf by done.
  split_and!; [done..|].
  unfold two_hop.get_interference.
  destruct (decide ((a1, b1) = (a2, b2))) as [Heq|Hne].
  { rewrite decide_False; [done|]. naive_solver. }
  rewrite (edge_channel_Ok norder g _ edges v1 c1) by done.
  rewrite (edge_channel_Ok norder g _ edges v2 c2) by done.
  simpl. destruct (decide (c1 ≠ c2)) as [Hcne|Hceq].
  { rewrite decide_False; [done|]. naive_solver. }
  apply dec_stable in Hceq.
  rewrite min_hop_count_wf by done. simpl.
  destruct (Z.ltb_spec (Z.min (Z.min (Z.min (distance g a1 a2) (distance g a1 b2))
                                     (distance g b1 a2)) (distance g b1 b2)) 2).
  - by rewrite decide_True.
  - rewrite decide_False; [done|]. intros (_ & _ & ?). lia.
Qed.

End ClaimC3.

(** C3, witness: on the path a - b - c - d with every link on channel 1,
    the links a - b and c - d are one hop apart and interfere. *)
Lemma two_hop_get_interference_iff_witness :
  ∃ h1 h2 h3 h4,
    get_distance Examples.net_path "a"%string "c"%string = Ok h1 ∧
    get_distance Examples.net_path "a"%string "d"%string = Ok h2 ∧
    get_distance Examples.net_path "b"%string "c"%string = Ok h3 ∧
    get_distance Examples.net_path "b"%string "d"%string = Ok h4 ∧
    two_hop.get_interference Examples.norder4 Examples.net_path
      ("a", "b")%string ("c", "d")%string =
    Ok (VInt (if decide (("a", "b")%string ≠ ("c", "d")%string ∧ 1 = 1 ∧
                         Z.min (Z.min (Z.min h1 h2) h3) h4 < 2)
              then 1 else 0)).
Proof.
  apply (two_hop_get_interference_iff Examples.norder4 (enumerates_order_by _)
            Examples.net_path ("a", "b")%string ("c", "d")%string
            (Examples.edges_of Examples.norder4 Examples.net_path)
            (VStr "1") (VStr "1") 1 1).
  - decide_by_computation.
  - decide_by_computation.
  - decide_by_computation.
  - decide_by_computation.
  - decide_by_computation.
  - decide_by_computation.
Defined.

(** ** Claim C4 *)

Lemma frequencies_forall (P : Z → Z → bool) :
  forallb (λ cf, P cf.1 cf.2) (map_to_list two_hop_frac.frequencies) = true →
  ∀ c f, two_hop_frac.frequencies !! c = Some f → P c f = true.
Proof.
  intros Hall c f Hcf. rewrite forallb_forall in Hall.
  apply (Hall (c, f)). apply list_elem_of_In. by apply elem_of_map_to_list.
Qed.

(** The table holds the centre frequencies of the channel plan. *)
Lemma frequencies_center c f :
  two_hop_frac.frequencies !! c = Some f → f = center_frequency c.
Proof.
  intros Hcf. apply Z.eqb_eq.
  revert c f Hcf. apply (frequencies_forall (λ c f, f =? center_frequency c)).
  vm_compute. reflexivity.
Qed.

Lemma frequencies_forall2 (P : Z → Z → bool) :
  forallb (λ cf1, forallb (λ cf2, P cf1.2 cf2.2)
                    (map_to_list two_hop_frac.frequencies))
          (map_to_list two_hop_frac.frequencies) = true →
  ∀ c1 f1 c2 f2,
    two_hop_frac.frequencies !! c1 = Some f1 →
    two_hop_frac.frequencies !! c2 = Some f2 → P f1 f2 = true.
Proof.
  intros Hall c1 f1 c2 f2 H1 H2.
  apply (frequencies_forall (λ _ f2, P f1 f2)) with (c := c2); [|done].
  apply (frequencies_forall
           (λ _ f1, forallb (λ cf2, P f1 cf2.2) (map_to_list two_hop_frac.frequencies)))
    with (c := c1); done.
Qed.

(** For the frequencies of the table that are less than 60 MHz apart, the
    float that the code computes, [-1.0/60 * diff + 1], is the float
    [1 - diff/60]. *)
Lemma frequencies_overlap c1 f1 c2 f2 :
  two_hop_frac.frequencies !! c1 = Some f1 →
  two_hop_frac.frequencies !! c2 = Some f2 →
  float_add
    (float_mul (float_div (SFopp (float_of_Z 1)) (float_of_Z two_hop_frac.MIN_FREQ_DIFF))
       (float_of_Z (Z.abs (f1 - f2))))
    (float_of_Z 1) = spectral_overlap (Z.abs (f1 - f2)).
Proof.
  intros H1 H2. apply (bool_decide_eq_true_1 _ (Decision0 := _)).
  revert c1 f1 c2 f2 H1 H2.
  apply (frequencies_forall2
           (λ f1 f2,
              bool_decide
                (float_add
                   (float_mul (float_div (SFopp (float_of_Z 1))
                                 (float_of_Z two_hop_frac.MIN_FREQ_DIFF))
                      (float_of_Z (Z.abs (f1 - f2))))
                   (float_of_Z 1) = spectral_overlap (Z.abs (f1 - f2))))).
  vm_compute. reflexivity.
Qed.

Section ClaimC4.
Context (norder : gset string → list string) (Hnorder : enumerates norder).

(** C4.  For two distinct edges of a graph whose channels are in the
    frequency table, the table gives the centre frequencies of the channel
    plan, and the fractional two-hop model returns 0 when the minimum of the
    four hop distances is at least 2; otherwise, with
    [diff = |freq1 - freq2|], it returns 0 when [diff >= 60] and the float
    [1 - diff/60] otherwise, which is the float 1 for equal channels. *)
Theorem two_hop_frac_get_interference_spec (g : NetGraph) (e1 e2 : Edge)
    (edges : gmap Edge Val) (v1 v2 : Val) (c1 c2 f1 f2 : Z) :
  Graph_wf g →
  get_edges norder false g = Ok edges →
  edges !! e1 = Some v1 → edges !! e2 = Some v2 → e1 ≠ e2 →
  py_int v1 = Ok c1 → py_int v2 = Ok c2 →
  two_hop_frac.frequencies !! c1 = Some f1 →
  two_hop_frac.frequencies !! c2 = Some f2 →
  f1 = center_frequency c1 ∧ f2 = center_frequency c2 ∧
  ∃ h1 h2 h3 h4,
    get_distance g e1.1 e2.1 = Ok h1 ∧ get_distance g e1.1 e2.2 = Ok h2 ∧
    get_distance g e1.2 e2.1 = Ok h3 ∧ get_distance g e1.2 e2.2 = Ok h4 ∧
    let m := Z.min (Z.min (Z.min h1 h2) h3) h4 in
    let diff := Z.abs (f1 - f2) in
    two_hop_frac.get_interference norder g e1 e2 =
    Ok (if decide (2 ≤ m) then VInt 0
        else if decide (60 ≤ diff) then VInt 0
        else VFloat (spectral_overlap diff)) ∧
    (c1 = c2 → m < 2 →
     two_hop_frac.get_interference norder g e1 e2 = Ok (VFloat (float_of_Z 1))).
Proof.
  intros Hwf Hedges He1 He2 Hne Hc1 Hc2 Hf1 Hf2.
  split; [by eapply frequencies_center|]. split; [by eapply frequencies_center|].
  destruct e1 as [a1 b1], e2 as [a2 b2].
  destruct (get_edges_vertices norder Hnorder g edges a1 b1 v1) as (Ha1 & Hb1 & _); [done..|].
  destruct (get_edges_vertices norder Hnorder g edges a2 b2 v2) as (Ha2 & Hb2 & _); [done..|].
  exists (distance g a1 a2), (distance g a1 b2), (distance g b1 a2), (distance g b1 b2).
  simpl. rewrite !get_distance_wf by done.
  do 4 (split; [done|]).
  set (m := Z.min (Z.min (Z.min (distance g a1 a2) (distance g a1 b2))
                         (distance g b1 a2)) (distance g b1 b2)).
  assert (Hrun : two_hop_frac.get_interference norder g (a1, b1) (a2, b2) =
                 Ok (if decide (2 ≤ m) then VInt 0
                     else if decide (60 ≤ Z.abs (f1 - f2)) then VInt 0
                     else VFloat (spectral_overlap (Z.abs (f1 - f2))))).
  { unfold two_hop_frac.get_interference.
    rewrite decide_False by done.
    rewrite (edge_channel_Ok norder g _ edges v1 c1) by done.
    rewrite (edge_channel_Ok norder g _ edges v2 c2) by done.
    cbn [bindR]. rewrite Hf1, Hf2.
    rewrite (frequencies_overlap c1 f1 c2 f2 Hf1 Hf2).
    unfold two_hop_frac.MIN_FREQ_DIFF.
    rewrite min_hop_count_wf by done. cbn [bindR fst snd]. fold m.
    destruct (Z.leb_spec 60 (Z.abs (f1 - f2))).
    - rewrite (decide_True (P := 60 ≤ _)) by done. by case_decide.
    - rewrite (decide_False (P := 60 ≤ _)) by lia.
      destruct (Z.ltb_spec m 2).
      + rewrite decide_False by lia. done.
      + rewrite decide_True by lia. done. }
  split; [done|].
  intros Hc Hm. rewrite Hrun. rewrite decide_False by lia.
  assert (f1 = f2) as -> by congruence.
  rewrite Z.sub_diag. change (Z.abs 0) with 0. rewrite decide_False by lia. done.
Qed.

End ClaimC4.

(** C4, witness: the links a - b (channel 1, 2412 MHz) and c - d (channel 2,
    2417 MHz) of the path a - b - c - d are one hop apart. *)
Lemma two_hop_frac_get_interference_spec_witness :
  2412 = center_frequency 1 ∧ 2417 = center_frequency 2 ∧
  ∃ h1 h2 h3 h4,
    get_distance Examples.net_mixed "a"%string "c"%string = Ok h1 ∧
    get_distance Examples.net_mixed "a"%string "d"%string = Ok h2 ∧
    get_distance Examples.net_mixed "b"%string "c"%string = Ok h3 ∧
    get_distance Examples.net_mixed "b"%string "d"%string = Ok h4 ∧
    let m := Z.min (Z.min (Z.min h1 h2) h3) h4 in
    let diff := Z.abs (2412 - 2417) in
    two_hop_frac.get_interference Examples.norder4 Examples.net_mixed
      ("a", "b")%string ("c", "d")%string =
    Ok (if decide (2 ≤ m) then VInt 0
        else if decide (60 ≤ diff) then VInt 0
        else VFloat (spectral_overlap diff)) ∧
    (1 = 2 → m < 2 →
     two_hop_frac.get_interference Examples.norder4 Examples.net_mixed
       ("a", "b")%string ("c", "d")%string = Ok (VFloat (float_of_Z 1))).
Proof.
  apply (two_hop_frac_get_interference_spec Examples.norder4 (enumerates_order_by _)
            Examples.net_mixed ("a", "b")%string ("c", "d")%string
            (Examples.edges_of Examples.norder4 Examples.net_mixed)
            (VStr "1") (VStr "2") 1 2 2412 2417).
  - decide_by_computation.
  - decide_by_computation.
  - decide_by_computation.
  - decide_by_computation.
  - discriminate.
  - decide_by_computation.
  - decide_by_computation.
  - decide_by_computation.
  - decide_by_computation.
Defined.

(** ** Claim C5 *)

(** The conversion raises [CHANError], with the raw value and the edge,
    exactly when [int()] raises [TypeError]; the other exceptions of
    [int()] pass through. *)
Lemma edge_channel_error (norder : gset string → list string) (g : NetGraph)
    (e : Edge) (edges : gmap Edge Val) (value : Val) (x : exn) :
  get_edges norder false g = Ok edges → edges !! e = Some value →
  py_int value = Raise x →
  edge_channel norder g e =
  Raise (match x with TypeError => CHANError value e | _ => x end).
Proof.
  intros Hedges He Hx.
  rewrite (edge_channel_unfold norder g e edges Hedges), He, Hx.
  by destruct x.
Qed.

(** C5, the failing input.  The link a - b holds the non-numeric string
    "x": each of the three models raises [ValueError], not [CHANError]. *)
Theorem get_interference_non_numeric_string :
  two_hop.get_interference Examples.norder4 Examples.net_bad
    ("a", "b")%string ("c", "b")%string = Raise ValueError ∧
  two_hop_frac.get_interference Examples.norder4 Examples.net_bad
    ("a", "b")%string ("c", "b")%string = Raise ValueError ∧
  (co.get_interference Examples.norder4 Examples.db_one Examples.net_bad
     ("a", "b")%string ("c", "b")%string Examples.cache_one).2 = Raise ValueError.
Proof. split_and!; vm_compute; reflexivity. Qed.

(** An edge value that [int()] rejects with a [TypeError], here the list
    [[1]], does give the [CHANError] that carries the value and the edge. *)
Lemma get_interference_list_value :
  two_hop.get_interference Examples.norder4 Examples.net_list
    ("a", "b")%string ("c", "b")%string =
  Raise (CHANError (VList [1]) ("a", "b")%string) ∧
  two_hop_frac.get_interference Examples.norder4 Examples.net_list
    ("a", "b")%string ("c", "b")%string =
  Raise (CHANError (VList [1]) ("a", "b")%string) ∧
  (co.get_interference Examples.norder4 Examples.db_one Examples.net_list
     ("a", "b")%string ("c", "b")%string Examples.cache_one).2 =
  Raise (CHANError (VList [1]) ("a", "b")%string).
Proof. split_and!; vm_compute; reflexivity. Qed.

(** ** Claim C9 *)

Section ClaimC9.
Context (norder : gset string → list string) (db : Database).

(** C9.  With a populated cache, for two distinct edges on the same
    channel, [co.get_interference] raises [KeyError] as soon as one of the
    four listener-sender pairs has no entry in [cot_max]; the cache is
    left as it is. *)
Theorem co_get_interference_missing_measurement (g : NetGraph) (e1 e2 : Edge)
    (edges : gmap Edge Val) (v1 v2 : Val) (c : Z) (cache : co.Cache) :
  get_edges norder false g = Ok edges →
  edges !! e1 = Some v1 → edges !! e2 = Some v2 → e1 ≠ e2 →
  py_int v1 = Ok c → py_int v2 = Ok c →
  size (co.node_id cache) ≠ 0%nat →
  co.cot_max cache !! co.key e1.1 e2.1 = None ∨
  co.cot_max cache !! co.key e1.1 e2.2 = None ∨
  co.cot_max cache !! co.key e1.2 e2.1 = None ∨
  co.cot_max cache !! co.key e1.2 e2.2 = None →
  co.get_interference norder db g e1 e2 cache = (cache, Raise KeyError).
Proof.
  intros Hedges He1 He2 Hne Hc1 Hc2 Hpop Hmiss.
  unfold co.get_interference, bindM, readM, retM.
  rewrite decide_False by done.
  rewrite decide_False by done.
  rewrite (edge_channel_Ok norder g _ edges v1 c) by done.
  rewrite (edge_channel_Ok norder g _ edges v2 c) by done.
  rewrite decide_False by naive_solver.
  unfold co.lookup_co.
  destruct (co.cot_max cache !! co.key e1.1 e2.1); [|done].
  destruct (co.cot_max cache !! co.key e1.1 e2.2); [|done].
  destruct (co.cot_max cache !! co.key e1.2 e2.1); [|done].
  destruct (co.cot_max cache !! co.key e1.2 e2.2); [|done].
  naive_solver.
Qed.

End ClaimC9.

(** C9, witness: the cache holds the measurement a-c only; for the links
    a - b and c - d, both on channel 1, the pair a-d is missing. *)
Lemma co_get_interference_missing_measurement_witness :
  co.get_interference Examples.norder4 Examples.db_one Examples.net_path
    ("a", "b")%string ("c", "d")%string Examples.cache_one =
  (Examples.cache_one, Raise KeyError).
Proof.
  apply (co_get_interference_missing_measurement Examples.norder4 Examples.db_one
           Examples.net_path ("a", "b")%string ("c", "d")%string
           (Examples.edges_of Examples.norder4 Examples.net_path)
           (VStr "1") (VStr "1") 1).
  - decide_by_computation.
  - decide_by_computation.
  - decide_by_computation.
  - discriminate.
  - decide_by_computation.
  - decide_by_computation.
  - vm_compute. discriminate.
  - right. left. vm_compute. reflexivity.
Defined.

(** ** Claim C10 *)

Lemma for_each_preserves {S X T} (f : S → T) (xs : list X) (body : X → M S unit) :
  (∀ x s, f (body x s).1 = f s) → ∀ s, f (for_each xs body s).1 = f s.
Proof.
  intros Hbody. induction xs as [|x xs IH]; intros s; [done|].
  simpl. unfold bindM. specialize (Hbody x s).
  destruct (body x s) as [s1 [[]|e]]; simpl in *.
  - by rewrite IH.
  - done.
Qed.


Section ClaimC10.
Context (norder : gset string → list string) (Hnorder : enumerates norder).
Context (corder : gset ConflictGraphVertex → list ConflictGraphVertex).

Lemma on_self_network_graph {A} (c : M (Graph ConflictGraphVertex) A) (s : ConflictGraph) :
  network_graph (on_self c s).1 = network_graph s.
Proof. unfold on_self. by destruct (c (cg_graph s)). Qed.

(** [update_edge] does not touch the network graph, whether it raises or
    not. *)
Lemma update_edge_network_graph cg_vertex (s : ConflictGraph) :
  network_graph (update_edge corder cg_vertex s).1 = network_graph s.
Proof.
  unfold update_edge. apply for_each_preserves. clear s. intros v2 s.
  unfold bindM, interference, readM, on_self.
  destruct (interference_model s _ _ _) as [value|]; [|done].
  apply on_self_network_graph.
Qed.

(** C10.  For a vertex whose link joins two nodes of the network graph
    and for every integer [c], [get_channel()] after [set_channel(c)]
    returns [c] (also when the update of the conflict graph that
    [set_channel] runs has raised). *)
Theorem get_channel_set_channel (s : ConflictGraph) (self : ConflictGraphVertex) (c : Z) :
  Graph_wf (network_graph s) →
  (nw_graph_edge self).1 ∈ get_vertices (network_graph s) →
  (nw_graph_edge self).2 ∈ get_vertices (network_graph s) →
  get_channel self (set_channel norder corder self c s).1 = Ok c.
Proof.
  intros Hwf H1 H2. destruct self as [id [v1 v2]]. simpl in *.
  destruct (set_edge_value_update_spec norder Hnorder (network_graph s) v1 v2
              (VStr (py_str_int c)) Hwf H1 H2) as (g' & Hrun & Hwf' & Hv' & Hval').
  unfold set_channel, bindM, on_network. cbn [nw_graph_edge]. rewrite Hrun.
  unfold get_channel. rewrite update_edge_network_graph. cbn [network_graph nw_graph_edge].
  rewrite (get_edge_value_wf g' v1 v2) by (by rewrite ?Hv').
  rewrite Hval'. rewrite decide_True by (by left).
  simpl. apply py_int_of_str.
Qed.

End ClaimC10.

(** C10, witness: the link a - b of the path a - b - c - d is set to
    channel 6. *)
Lemma get_channel_set_channel_witness :
  get_channel (mkCGV 3 ("a", "b")%string)
    (set_channel Examples.norder4 elements (mkCGV 3 ("a", "b")%string) 6
       Examples.cg_path).1 = Ok 6.
Proof.
  apply (get_channel_set_channel Examples.norder4 (enumerates_order_by _) elements
           Examples.cg_path (mkCGV 3 ("a", "b")%string) 6).
  - decide_by_computation.
  - decide_by_computation.
  - decide_by_computation.
Defined.

(** ** Claim C1 *)

Section ClaimC1.
Context (norder : gset string → list string) (Hnorder : enumerates norder).
Context (corder : gset ConflictGraphVertex → list ConflictGraphVertex)
        (Hcorder : enumerates corder).

Lemma get_vertices_on_self_set_edge_value (s s' : ConflictGraph) v1 v2 value :
  Graph_wf (cg_graph s) →
  v1 ∈ get_vertices (cg_graph s) → v2 ∈ get_vertices (cg_graph s) →
  on_self (set_edge_value corder (v1, v2) value false) s = (s', Ok tt) →
  Graph_wf (cg_graph s') ∧ get_vertices (cg_graph s') = get_vertices (cg_graph s) ∧
  network_graph s' = network_graph s ∧ interference_model s' = interference_model s ∧
  ∀ a b, edge_value (cg_graph s') a b =
         if decide (same_pair a b v1 v2) then value else edge_value (cg_graph s) a b.
Proof.
  intros Hwf H1 H2. unfold on_self.
  destruct (set_edge_value_spec corder (cg_graph s) v1 v2 value Hwf H1 H2)
    as (g' & -> & Hwf' & Hv' & Hval' & _).
  intros [= <-]. done.
Qed.

Lemma on_self_set_edge_value_Ok (s : ConflictGraph) v1 v2 value :
  Graph_wf (cg_graph s) →
  v1 ∈ get_vertices (cg_graph s) → v2 ∈ get_vertices (cg_graph s) →
  ∃ s', on_self (set_edge_value corder (v1, v2) value false) s = (s', Ok tt).
Proof.
  intros Hwf H1 H2. unfold on_self.
  destruct (set_edge_value_spec corder (cg_graph s) v1 v2 value Hwf H1 H2)
    as (g' & -> & _). eauto.
Qed.

(** The values of the links other than the changed one are the same keys
    of [get_edges()] before and after the change. *)
Lemma edge_lookup_other (g g' : NetGraph) v1 v2 e :
  Graph_wf g → Graph_wf g' → get_vertices g' = get_vertices g →
  (∀ a b, ¬ same_pair a b v1 v2 → edge_value g' a b = edge_value g a b) →
  ¬ same_pair e.1 e.2 v1 v2 →
  edge_lookup norder g' e = edge_lookup norder g e.
Proof.
  intros Hwf Hwf' Hv Hval Hne. unfold edge_lookup.
  destruct (get_edges_spec norder Hnorder g Hwf) as (edges & -> & Hspec).
  destruct (get_edges_spec norder Hnorder g' Hwf') as (edges' & -> & Hspec').
  simpl. destruct e as [p q]. simpl in Hne.
  assert (Heq : edges' !! (p, q) = edges !! (p, q)).
  { apply option_eq. intros v. rewrite Hspec, Hspec', Hv, (Hval p q Hne). done. }
  by rewrite Heq.
Qed.

Lemma distances_symmetric_of_fixpoint (g : NetGraph) :
  Graph_wf g → update_distances norder g = (g, Ok tt) → distances_symmetric g.
Proof.
  intros Hwf Hfix a b.
  destruct (update_distances_basic norder Hnorder g Hwf) as (g' & Hrun & _ & _ & Hsym & _).
  rewrite Hfix in Hrun. injection Hrun as <-.
  destruct (decide (a ∈ get_vertices g ∧ b ∈ get_vertices g)) as [[Ha Hb]|Hn].
  - rewrite !get_distance_wf by done. by rewrite Hsym.
  - rewrite !get_distance_outside; naive_solver.
Qed.

Lemma cg_invariant_lookup (s : ConflictGraph) a b :
  Graph_wf (cg_graph s) → cg_invariant s →
  a ∈ get_vertices (cg_graph s) → b ∈ get_vertices (cg_graph s) →
  interference_model s (network_graph s) (nw_graph_edge a) (nw_graph_edge b) =
  Ok (edge_value (cg_graph s) a b).
Proof.
  intros Hwf Hinv Ha Hb. rewrite (Hinv a Ha b Hb). by apply get_edge_value_wf.
Qed.

(** After a [set_channel] that has not raised, the weight of every pair is
    again what the model returns on the changed network graph, provided
    the model is local and symmetric, the vertices wrap distinct links, and
    the distances of the network graph were up to date. *)
Lemma set_channel_keeps_invariant (s s1 : ConflictGraph) (self : ConflictGraphVertex) (c : Z) :
  Graph_wf (network_graph s) → Graph_wf (cg_graph s) →
  self ∈ get_vertices (cg_graph s) →
  (nw_graph_edge self).1 ∈ get_vertices (network_graph s) →
  (nw_graph_edge self).2 ∈ get_vertices (network_graph s) →
  distinct_links s → cg_invariant s →
  im_local norder (interference_model s) → im_symmetric (interference_model s) →
  update_distances norder (network_graph s) = (network_graph s, Ok tt) →
  get_distance (network_graph s) (nw_graph_edge self).1 (nw_graph_edge self).2 = Ok 1 →
  set_channel norder corder self c s = (s1, Ok tt) →
  Graph_wf (cg_graph s1) ∧
  get_vertices (cg_graph s1) = get_vertices (cg_graph s) ∧
  interference_model s1 = interference_model s ∧
  ∀ x y, x ∈ get_vertices (cg_graph s) → y ∈ get_vertices (cg_graph s) →
    interference_model s (network_graph s1) (nw_graph_edge x) (nw_graph_edge y) =
    Ok (edge_value (cg_graph s1) x y) ∧
    edge_value (cg_graph s1) y x = edge_value (cg_graph s1) x y.
Proof.
  intros Hwfn Hwfc Hself H1 H2 Hdistinct Hinv Hlocal Hsymm Hfix Hd12 Hrun.
  destruct s as [cgG ng I]. cbn [network_graph cg_graph interference_model] in *.
  destruct (nw_graph_edge self) as [v1 v2] eqn:Hedge. cbn [fst snd] in *.
  assert (Hsymng := distances_symmetric_of_fixpoint ng Hwfn Hfix).
  assert (Hd21 : get_distance ng v2 v1 = Ok 1) by (by rewrite <-(Hsymng v1 v2)).
  destruct (set_edge_value_up_to_date norder Hnorder ng v1 v2 (VStr (py_str_int c))
              Hwfn H1 H2 Hfix Hd12 Hd21) as (g' & Hrung & Hwfg & Hvg & Hdg & Hvalg).
  (* the run of set_channel *)
  unfold set_channel, bindM, on_network in Hrun. cbn [network_graph] in Hrun.
  rewrite Hedge, Hrung in Hrun. cbn [cg_graph interference_model] in Hrun.
  (* facts about the changed network graph *)
  assert (HB1 : ∀ a b, get_distance ng a b = get_distance g' a b).
  { intros a b. unfold get_distance. by rewrite Hdg. }
  assert (HB2 : distances_symmetric g').
  { intros a b. by rewrite <-!HB1. }
  assert (HB4 : ∀ x y, x ∈ get_vertices cgG → y ∈ get_vertices cgG →
                       x ≠ self → y ≠ self →
                       I g' (nw_graph_edge x) (nw_graph_edge y) =
                       I ng (nw_graph_edge x) (nw_graph_edge y)).
  { intros x y Hx Hy Hxs Hys. symmetry. apply Hlocal; [done|..]; symmetry.
    - apply (edge_lookup_other ng g' v1 v2); try done.
      + intros a b Hab. rewrite Hvalg. by rewrite decide_False.
      + assert (Hd := Hdistinct x Hx self Hself Hxs). simpl in Hd.
        by rewrite Hedge in Hd.
    - apply (edge_lookup_other ng g' v1 v2); try done.
      + intros a b Hab. rewrite Hvalg. by rewrite decide_False.
      + assert (Hd := Hdistinct y Hy self Hself Hys). simpl in Hd.
        by rewrite Hedge in Hd. }
  (* the loop of update_edge *)
  set (Iinv := λ st : ConflictGraph,
         Graph_wf (cg_graph st) ∧ get_vertices (cg_graph st) = get_vertices cgG ∧
         network_graph st = g' ∧ interference_model st = I ∧
         ∀ a b, a ≠ self → b ≠ self →
                edge_value (cg_graph st) a b = edge_value cgG a b).
  set (R := λ (v : ConflictGraphVertex) (st : ConflictGraph),
         I g' (nw_graph_edge self) (nw_graph_edge v) = Ok (edge_value (cg_graph st) self v) ∧
         edge_value (cg_graph st) v self = edge_value (cg_graph st) self v).
  unfold update_edge in Hrun. cbn [cg_graph] in Hrun.
  apply (for_each_establish_partial Iinv R) in Hrun
    as [(Hwf1 & Hv1 & Hn1 & HI1 & Hkeep) HR]; cycle 1.
  { intros v st st' Hv (Hwfst & Hvst & Hnst & HIst & Hkst) Hbody.
    apply (elem_of_order _ Hcorder) in Hv.
    unfold bindM, interference, readM in Hbody. rewrite Hnst, HIst in Hbody.
    destruct (I g' (nw_graph_edge self) (nw_graph_edge v)) as [value|] eqn:Hvalue; [|done].
    apply get_vertices_on_self_set_edge_value in Hbody
      as (Hwf' & Hv' & Hn' & HI' & Hval'); [|by rewrite ?Hvst..].
    split; [|split].
    - split_and!; [done|congruence|congruence|congruence|].
      intros a b Ha Hb. rewrite Hval'. rewrite decide_False; [by apply Hkst|].
      unfold same_pair. naive_solver.
    - unfold R. rewrite !Hval'. rewrite !decide_True by (unfold same_pair; naive_solver).
      done.
    - intros y [Hy1 Hy2]. unfold R. rewrite !Hval'. unfold same_pair.
      repeat case_decide; try done; naive_solver. }
  { unfold Iinv. simpl. done. }
  simpl. split; [done|]. split; [done|]. split; [done|].
  rewrite Hn1.
  intros x y Hx Hy.
  destruct (decide (x = self)) as [->|Hxs].
  { apply HR. by apply (elem_of_order _ Hcorder). }
  destruct (decide (y = self)) as [->|Hys].
  { destruct (HR x) as [Hval Hsw]; [by apply (elem_of_order _ Hcorder)|].
    split; [|done]. rewrite Hsw. by apply Hsymm. }
  rewrite !Hkeep by done. rewrite HB4 by done.
  assert (Hxy := cg_invariant_lookup (mkCG cgG ng I) x y Hwfc Hinv Hx Hy).
  assert (Hyx := cg_invariant_lookup (mkCG cgG ng I) y x Hwfc Hinv Hy Hx).
  simpl in Hxy, Hyx. split; [done|].
  apply Hsymm in Hxy; [|done]. congruence.
Qed.

(** [update_edges] writes, for every pair, the value of the model, when
    the model raises nothing and is symmetric on the links of the graph. *)
Lemma update_edges_spec (st : ConflictGraph) (W : ConflictGraphVertex → ConflictGraphVertex → Val) :
  Graph_wf (cg_graph st) →
  (∀ x y, x ∈ get_vertices (cg_graph st) → y ∈ get_vertices (cg_graph st) →
     interference_model st (network_graph st) (nw_graph_edge x) (nw_graph_edge y) =
     Ok (W x y) ∧ W y x = W x y) →
  ∃ st', update_edges corder st = (st', Ok tt) ∧
         Graph_wf (cg_graph st') ∧
         get_vertices (cg_graph st') = get_vertices (cg_graph st) ∧
         network_graph st' = network_graph st ∧
         interference_model st' = interference_model st ∧
         ∀ a b, a ∈ get_vertices (cg_graph st) → b ∈ get_vertices (cg_graph st) →
                get_edge_value (cg_graph st') (a, b) = Ok (W a b).
Proof.
  intros Hwf HW. unfold update_edges.
  set (Iinv := λ s : ConflictGraph,
         Graph_wf (cg_graph s) ∧ get_vertices (cg_graph s) = get_vertices (cg_graph st) ∧
         network_graph s = network_graph st ∧ interference_model s = interference_model st).
  set (R := λ a b (s : ConflictGraph),
         edge_value (cg_graph s) a b = W a b ∧ edge_value (cg_graph s) b a = W b a).
  destruct (for_pairs_establish Iinv R (corder (get_vertices (cg_graph st)))
              (λ v1 v2,
                 value <~~ interference (nw_graph_edge v1) (nw_graph_edge v2);
                 on_self (set_edge_value corder (v1, v2) value false))) with (s := st)
    as (st' & Hrun & (Hwf' & Hv' & Hn' & HI') & HR & _).
  - intros x y s [Hx Hy]%precedes_elem_of (Hwfs & Hvs & Hns & HIs).
    apply (elem_of_order _ Hcorder) in Hx, Hy.
    destruct (HW x y Hx Hy) as [Hval Hsym].
    unfold bindM, interference, readM. rewrite Hns, HIs, Hval.
    destruct (on_self_set_edge_value_Ok s x y (W x y)) as [s' Hs']; [by rewrite ?Hvs..|].
    rewrite Hs'. exists s'. split; [done|].
    apply get_vertices_on_self_set_edge_value in Hs'
      as (Hwf' & Hv' & Hn' & HI' & Hval'); [|by rewrite ?Hvs..].
    split; [|split].
    + unfold Iinv. split_and!; congruence.
    + unfold R. rewrite !Hval'. rewrite !decide_True by (unfold same_pair; naive_solver).
      done.
    + intros a b [Hab Hba]. unfold R. rewrite !Hval'. unfold same_pair.
      repeat case_decide; try done; naive_solver.
  - done.
  - exists st'. split_and!; try done.
    intros a b Ha Hb. rewrite get_edge_value_wf by (by rewrite ?Hv').
    f_equal.
    destruct (precedes_total (corder (get_vertices (cg_graph st))) a b) as [Hab|Hab];
      try (by apply (elem_of_order _ Hcorder)).
    + by destruct (HR a b Hab).
    + by destruct (HR b a Hab).
Qed.

(** C1 (as amended).  Let the interference model be local (its value for
    two links depends only on their two values and on the distances) and
    symmetric, as the two two-hop models are; let the conflict graph have
    one vertex per link and satisfy its invariant; and let the distances of
    the network graph be up to date ([update_distances] changes nothing and
    the link is at distance 1).  Then after a [set_channel(c)] that has not
    raised, the weight of every pair of vertices is the one that a full
    [update_edges()] on the changed network graph produces, from whatever
    weights it starts. *)
Theorem set_channel_update_edges (s s1 : ConflictGraph) (self : ConflictGraphVertex)
    (c : Z) (cg0 : Graph ConflictGraphVertex) :
  Graph_wf (network_graph s) → Graph_wf (cg_graph s) →
  self ∈ get_vertices (cg_graph s) →
  (nw_graph_edge self).1 ∈ get_vertices (network_graph s) →
  (nw_graph_edge self).2 ∈ get_vertices (network_graph s) →
  distinct_links s → cg_invariant s →
  im_local norder (interference_model s) → im_symmetric (interference_model s) →
  update_distances norder (network_graph s) = (network_graph s, Ok tt) →
  get_distance (network_graph s) (nw_graph_edge self).1 (nw_graph_edge self).2 = Ok 1 →
  set_channel norder corder self c s = (s1, Ok tt) →
  Graph_wf cg0 → get_vertices cg0 = get_vertices (cg_graph s) →
  ∃ s2,
    update_edges corder (mkCG cg0 (network_graph s1) (interference_model s)) = (s2, Ok tt) ∧
    ∀ a b, a ∈ get_vertices (cg_graph s) → b ∈ get_vertices (cg_graph s) →
           get_edge_value (cg_graph s1) (a, b) = get_edge_value (cg_graph s2) (a, b).
Proof.
  intros Hwfn Hwfc Hself H1 H2 Hdistinct Hinv Hlocal Hsymm Hfix Hd12 Hrun Hwf0 Hv0.
  destruct (set_channel_keeps_invariant s s1 self c) as (Hwf1 & Hv1 & HI1 & Hinv1); try done.
  destruct (update_edges_spec (mkCG cg0 (network_graph s1) (interference_model s))
              (edge_value (cg_graph s1))) as (s2 & Hrun2 & _ & _ & _ & _ & Hval2).
  { done. }
  { simpl. rewrite Hv0. apply Hinv1. }
  exists s2. split; [done|]. intros a b Ha Hb.
  simpl in Hval2. rewrite Hval2 by (by rewrite Hv0).
  apply get_edge_value_wf; by rewrite ?Hv1.
Qed.

End ClaimC1.

(** C1, witness: the conflict graph of the path a - b - c - d under the
    binary two-hop model; the link a - b is moved to channel 6. *)
Lemma set_channel_update_edges_witness :
  ∃ s2,
    update_edges elements
      (mkCG (cg_graph Examples.cg_path)
         (network_graph
            (set_channel Examples.norder4 elements (mkCGV 3 ("a", "b")%string) 6
               (mkCG (cg_graph Examples.cg_path) Examples.net_path
                  (two_hop.get_interference Examples.norder4))).1)
         (two_hop.get_interference Examples.norder4)) = (s2, Ok tt) ∧
    ∀ a b, a ∈ get_vertices (cg_graph Examples.cg_path) →
           b ∈ get_vertices (cg_graph Examples.cg_path) →
           get_edge_value
             (cg_graph
                (set_channel Examples.norder4 elements (mkCGV 3 ("a", "b")%string) 6
                   (mkCG (cg_graph Examples.cg_path) Examples.net_path
                      (two_hop.get_interference Examples.norder4))).1) (a, b) =
           get_edge_value (cg_graph s2) (a, b).
Proof.
  apply (set_channel_update_edges Examples.norder4 (enumerates_order_by _)
           elements enumerates_elements
           (mkCG (cg_graph Examples.cg_path) Examples.net_path
              (two_hop.get_interference Examples.norder4))
           _ (mkCGV 3 ("a", "b")%string) 6 (cg_graph Examples.cg_path)).
  - decide_by_computation.
  - decide_by_computation.
  - decide_by_computation.
  - decide_by_computation.
  - decide_by_computation.
  - decide_by_computation.
  - decide_by_computation.
  - apply two_hop_local.
  - apply two_hop_symmetric.
  - decide_by_computation.
  - decide_by_computation.
  - apply run_Ok. vm_compute. reflexivity.
  - decide_by_computation.
  - reflexivity.
Defined.

(** C1 as stated fails for the channel-occupancy model, which is not
    symmetric.  The links a - b (channel 1) and c - d (channel 2) do not
    interfere and the invariant holds.  Node a senses node c, but not the
    other way round.  After [set_channel(2)] on a - b, [update_edge] has
    stored the weight 1 for the pair, computed from a - b to c - d; a full
    [update_edges()], which visits the vertex of c - d first, stores 0. *)
Lemma set_channel_update_edges_counterexample :
  Graph_wf (network_graph Examples.cg_two) ∧
  Graph_wf (cg_graph Examples.cg_two) ∧
  cg_invariant Examples.cg_two ∧
  ∃ s1 s2,
    set_channel Examples.norder4 Examples.corder_cd_ab Examples.v_ab 2 Examples.cg_two
      = (s1, Ok tt) ∧
    update_edges Examples.corder_cd_ab s1 = (s2, Ok tt) ∧
    get_edge_value (cg_graph s1) (Examples.v_ab, Examples.v_cd) = Ok (VInt 1) ∧
    get_edge_value (cg_graph s2) (Examples.v_ab, Examples.v_cd) = Ok (VInt 0).
Proof.
  split; [decide_by_computation|]. split; [decide_by_computation|].
  split; [decide_by_computation|].
  exists (set_channel Examples.norder4 Examples.corder_cd_ab Examples.v_ab 2
            Examples.cg_two).1.
  exists (update_edges Examples.corder_cd_ab
            (set_channel Examples.norder4 Examples.corder_cd_ab Examples.v_ab 2
               Examples.cg_two).1).1.
  split_and!; [apply run_Ok| apply run_Ok| |]; vm_compute; reflexivity.
Qed.
